(** * ProtoUtils and StateInjector of src/src/services/AuthService.ts

    A shallow embedding of the schema-less protobuf patcher:
    [encodeVarint], [readVarint], [skipField], [removeField],
    [createOAuthField], [encodeTag], and the store update done by
    [StateInjector.injectTokenAndReload].

    Data as the TypeScript has it:
    - a [Buffer] is a [list byte];
    - a JavaScript [number] produced here is a non-negative integer or
      [+Infinity]: the type [jsnum]; [Number(bigint)] rounds to the nearest
      double ([Number_of_bigint]); [&], [>>], [<<] and [|] go through
      [ToInt32];
    - a JavaScript string is its list of UTF-16 code units ([jsstr]);
      [Buffer.from(s, 'utf8')] is [utf8_encode];
    - the store behind the sqlite3 CLI is a [gmap string string]. *)

From Stdlib Require Import ZArith Lia List Bool Ascii String.
From Stdlib Require Import Strings.Byte.
From stdpp Require Import base gmap strings.

Import ListNotations.
Open Scope Z_scope.

(* ------------------------------------------------------------------ *)
(** ** Bytes *)

Definition bval (b : byte) : Z := Z.of_N (Byte.to_N b).

(** [Buffer.from(number[])] stores each number modulo 256 (ToUint8). *)
Definition byte_of_Z (z : Z) : byte :=
  match Byte.of_N (Z.to_N (z mod 256)) with
  | Some b => b
  | None => Byte.x00
  end.

Definition bytes_of_Z (zs : list Z) : list byte := map byte_of_Z zs.

(* ------------------------------------------------------------------ *)
(** ** JavaScript numbers *)

(** The numbers of this code are integers (offsets, lengths, tags) or
    [+Infinity] (a huge bigint converted by [Number]). *)
Inductive jsnum : Type :=
| JFin (z : Z)
| JInf.

(** [Number(x)] for a bigint [x >= 0]: round to 53 significant bits, ties to
    even; [+Infinity] once the rounded value reaches [2^1024]. *)
Definition Number_of_bigint (z : Z) : jsnum :=
  if z <? 2 ^ 53 then JFin z
  else
    let e := Z.log2 z - 52 in
    let q := Z.shiftr z e in
    let r := z - Z.shiftl q e in
    let h := 2 ^ (e - 1) in
    let q' := if (h <? r) || ((r =? h) && Z.odd q) then q + 1 else q in
    let m := q' * 2 ^ e in
    if 2 ^ 1024 <=? m then JInf else JFin m.

(** ToInt32, applied to the operands of [&], [>>], [<<] and [|]. *)
Definition ToInt32_Z (z : Z) : Z :=
  let m := z mod 2 ^ 32 in
  if m <? 2 ^ 31 then m else m - 2 ^ 32.

Definition ToInt32 (n : jsnum) : Z :=
  match n with
  | JFin z => ToInt32_Z z
  | JInf => 0
  end.

(** [a + b] on numbers: the exact sum rounded to a double. *)
Definition js_add (a b : jsnum) : jsnum :=
  match a, b with
  | JFin x, JFin y => Number_of_bigint (x + y)
  | _, _ => JInf
  end.

(* ------------------------------------------------------------------ *)
(** ** Errors and outcomes *)

Inductive error : Type :=
| UnknownWireType (wt : Z)        (* skipField: Unknown wireType *)
| DbNotFound.                     (* Could not find state.vscdb *)

(** Result of a loop run with fuel; [NoFuel] is never reached when the fuel
    bounds the number of iterations (see [removeField_terminates]). *)
Inductive outcome (A : Type) : Type :=
| Done (a : A)
| Throw (e : error)
| NoFuel.
Arguments Done {A} a.
Arguments Throw {A} e.
Arguments NoFuel {A}.

(* ------------------------------------------------------------------ *)
(** ** ProtoUtils.encodeVarint *)

(** The [while (v >= 128n)] loop, with fuel. *)
Fixpoint encode_loop (fuel : nat) (v : Z) : list Z :=
  match fuel with
  | O => []
  | S f =>
      if 128 <=? v
      then Z.lor (Z.land v 127) 128 :: encode_loop f (Z.shiftr v 7)
      else [v]
  end.

(** Each iteration drops 7 bits, so [log2 v + 1] iterations suffice. *)
Definition encodeVarint (value : Z) : list byte :=
  bytes_of_Z (encode_loop (S (Z.to_nat (Z.log2 value))) value).

(* ------------------------------------------------------------------ *)
(** ** ProtoUtils.readVarint *)

(** The [while (pos < buffer.length)] loop over the bytes from [pos] on:
    [result |= (byte & 127n) << shift; pos++; if ((byte & 128n) === 0n)
    break; shift += 7n]. Returns the bigint [result] and the number of bytes
    read. *)
Fixpoint read_loop (bs : list byte) (result shift : Z) : Z * nat :=
  match bs with
  | [] => (result, O)
  | b :: rest =>
      let result' := Z.lor result (Z.shiftl (Z.land (bval b) 127) shift) in
      if Z.land (bval b) 128 =? 0 then (result', 1%nat)
      else let '(r, k) := read_loop rest result' (shift + 7) in (r, S k)
  end.

(** [{ value: Number(result), newOffset: pos }]. *)
Definition readVarint (buffer : list byte) (offset : Z) : jsnum * Z :=
  let '(result, k) := read_loop (skipn (Z.to_nat offset) buffer) 0 0 in
  (Number_of_bigint result, offset + Z.of_nat k).

(* ------------------------------------------------------------------ *)
(** ** ProtoUtils.skipField *)

Definition skipField (buffer : list byte) (offset : Z) (wireType : Z)
  : error + jsnum :=
  match wireType with
  | 0 => inr (JFin (snd (readVarint buffer offset)))
  | 1 => inr (Number_of_bigint (offset + 8))
  | 2 => let '(length, newOffset) := readVarint buffer offset in
         inr (js_add (JFin newOffset) length)
  | 5 => inr (Number_of_bigint (offset + 4))
  | _ => inl (UnknownWireType wireType)
  end.

(* ------------------------------------------------------------------ *)
(** ** ProtoUtils.removeField *)

(** [buffer.subarray(start, end)]: the end is clamped to the length. *)
Definition subarray (buffer : list byte) (start : Z) (end_ : jsnum) : list byte :=
  let e := match end_ with
           | JFin z => Z.min z (Z.of_nat (length buffer))
           | JInf => Z.of_nat (length buffer)
           end in
  firstn (Z.to_nat (e - start)) (skipn (Z.to_nat start) buffer).

(** [tag & 7] and [tag >> 3]. *)
Definition wire_type_of (tag : jsnum) : Z := Z.land (ToInt32 tag) 7.
Definition field_num_of (tag : jsnum) : Z := Z.shiftr (ToInt32 tag) 3.

(** The [while (offset < buffer.length)] loop; [chunks] is the array the
    kept spans are pushed to. *)
Fixpoint remove_loop (buffer : list byte) (fieldNumToRemove : Z)
    (fuel : nat) (offset : jsnum) (chunks : list (list byte))
    : outcome (list (list byte)) :=
  match fuel with
  | O => NoFuel
  | S f =>
      match offset with
      | JFin o =>
          if o <? Z.of_nat (length buffer) then
            let startOffset := o in
            let '(tag, newOffset) := readVarint buffer o in
            let wireType := wire_type_of tag in
            let fieldNum := field_num_of tag in
            if fieldNum =? fieldNumToRemove then
              match skipField buffer newOffset wireType with
              | inl e => Throw e
              | inr next => remove_loop buffer fieldNumToRemove f next chunks
              end
            else
              match skipField buffer newOffset wireType with
              | inl e => Throw e
              | inr nextOffset =>
                  remove_loop buffer fieldNumToRemove f nextOffset
                    (chunks ++ [subarray buffer startOffset nextOffset])
              end
          else Done chunks
      | JInf => Done chunks
      end
  end.

(** Every iteration advances the offset by at least one byte, so
    [buffer.length] iterations, and one last test of the loop condition,
    suffice. *)
Definition removeField (buffer : list byte) (fieldNumToRemove : Z)
    : outcome (list byte) :=
  match remove_loop buffer fieldNumToRemove (S (length buffer)) (JFin 0) [] with
  | Done chunks => Done (concat chunks)
  | Throw e => Throw e
  | NoFuel => NoFuel
  end.

(* ------------------------------------------------------------------ *)
(** ** Strings *)

(** A JavaScript string: its UTF-16 code units. *)
Definition jsstr : Type := list Z.

(** A string literal of the source (ASCII). *)
Definition js_of_string (s : string) : jsstr :=
  map (fun c => Z.of_nat (nat_of_ascii c)) (list_ascii_of_string s).

(** Truthiness of a string: [if (s)] holds for the non-empty strings. *)
Definition js_truthy (s : jsstr) : bool :=
  match s with [] => false | _ => true end.

(** [Buffer.from(s, 'utf8')]: a surrogate pair gives four bytes, a lone
    surrogate the replacement character EF BF BD. *)
Fixpoint utf8_units (s : jsstr) : list Z :=
  match s with
  | [] => []
  | u :: rest =>
      if u <? 128 then u :: utf8_units rest
      else if u <? 2048 then
        [Z.lor 192 (Z.shiftr u 6); Z.lor 128 (Z.land u 63)] ++ utf8_units rest
      else if (55296 <=? u) && (u <? 56320) then
        match rest with
        | u2 :: rest' =>
            if (56320 <=? u2) && (u2 <? 57344) then
              let cp := 65536 + (u - 55296) * 1024 + (u2 - 56320) in
              [Z.lor 240 (Z.shiftr cp 18);
               Z.lor 128 (Z.land (Z.shiftr cp 12) 63);
               Z.lor 128 (Z.land (Z.shiftr cp 6) 63);
               Z.lor 128 (Z.land cp 63)] ++ utf8_units rest'
            else [239; 191; 189] ++ utf8_units rest
        | [] => [239; 191; 189]
        end
      else if (56320 <=? u) && (u <? 57344) then
        [239; 191; 189] ++ utf8_units rest
      else
        [Z.lor 224 (Z.shiftr u 12);
         Z.lor 128 (Z.land (Z.shiftr u 6) 63);
         Z.lor 128 (Z.land u 63)] ++ utf8_units rest
  end.

Definition utf8_encode (s : jsstr) : list byte := bytes_of_Z (utf8_units s).

(* ------------------------------------------------------------------ *)
(** ** ProtoUtils.encodeTag and ProtoUtils.createOAuthField *)

(** [encodeVarint((fieldNum << 3) | wireType)]. *)
Definition encodeTag (fieldNum wireType : Z) : list byte :=
  encodeVarint
    (Z.lor (ToInt32_Z (Z.shiftl (ToInt32_Z fieldNum) 3)) (ToInt32_Z wireType)).

Definition createOAuthField (accessToken : option jsstr) (refreshToken : jsstr)
    (expiry : Z) : list byte :=
  (* Field 1: access_token (string, wireType=2) *)
  let p1 :=
    match accessToken with
    | Some a =>
        if js_truthy a then
          let buf := utf8_encode a in
          [encodeTag 1 2; encodeVarint (Z.of_nat (length buf)); buf]
        else []
    | None => []
    end in
  (* Field 2: token_type ("Bearer", wireType=2) *)
  let p2 :=
    let buf := utf8_encode (js_of_string "Bearer") in
    [encodeTag 2 2; encodeVarint (Z.of_nat (length buf)); buf] in
  (* Field 3: refresh_token (string, wireType=2) *)
  let p3 :=
    if js_truthy refreshToken then
      let buf := utf8_encode refreshToken in
      [encodeTag 3 2; encodeVarint (Z.of_nat (length buf)); buf]
    else [] in
  (* Field 4: expiry (Timestamp, wireType=2) *)
  let p4 :=
    let innerBuf := concat [encodeTag 1 0; encodeVarint expiry] in
    [encodeTag 4 2; encodeVarint (Z.of_nat (length innerBuf)); innerBuf] in
  let oauthInfo := concat (p1 ++ p2 ++ p3 ++ p4) in
  (* Wrap in Field 6 *)
  concat [encodeTag 6 2; encodeVarint (Z.of_nat (length oauthInfo)); oauthInfo].

(* ------------------------------------------------------------------ *)
(** ** The wire scan behind removeField *)

(** One field met by the [removeField] loop: where it starts, its number and
    wire type ([tag >> 3], [tag & 7]), where its payload starts (the offset
    after the tag) and the offset [skipField] returned for it. *)
Record field : Type := mkField {
  f_start : Z;
  f_num : Z;
  f_wt : Z;
  f_data : Z;
  f_end : jsnum
}.

(** How a scan stops: at the end of the buffer, at a field [skipField]
    rejects (its start, number and wire type, and the error), or out of
    fuel. *)
Inductive scan_stop : Type :=
| ScanEnd
| ScanFail (start num wt : Z) (e : error)
| ScanFuel.

(** The loop of [removeField] with the same reads and skips, recording each
    field instead of filtering it. *)
Fixpoint scan_loop (buffer : list byte) (fuel : nat) (offset : jsnum)
    : list field * scan_stop :=
  match fuel with
  | O => ([], ScanFuel)
  | S f =>
      match offset with
      | JFin o =>
          if o <? Z.of_nat (length buffer) then
            let '(tag, newOffset) := readVarint buffer o in
            let wt := wire_type_of tag in
            let num := field_num_of tag in
            match skipField buffer newOffset wt with
            | inl e => ([], ScanFail o num wt e)
            | inr next =>
                let '(fs, st) := scan_loop buffer f next in
                (mkField o num wt newOffset next :: fs, st)
            end
          else ([], ScanEnd)
      | JInf => ([], ScanEnd)
      end
  end.

Definition scan (buffer : list byte) : list field * scan_stop :=
  scan_loop buffer (S (length buffer)) (JFin 0).

(** The bytes [subarray(startOffset, nextOffset)] of a field. *)
Definition span (buffer : list byte) (f : field) : list byte :=
  subarray buffer (f_start f) (f_end f).

(** Number and wire type of every field the scan reads a tag for, the field
    it fails at included. *)
Definition scanned_tags (buffer : list byte) : list (Z * Z) :=
  let '(fs, st) := scan buffer in
  map (fun f => (f_num f, f_wt f)) fs ++
  match st with
  | ScanFail _ num wt _ => [(num, wt)]
  | _ => []
  end.

(** The payload of a length-delimited field: the bytes after its length. *)
Definition ld_payload (buffer : list byte) (f : field) : list byte :=
  let '(_, start) := readVarint buffer (f_data f) in
  subarray buffer start (f_end f).

(** The value of a varint field. *)
Definition varint_value (buffer : list byte) (f : field) : jsnum :=
  fst (readVarint buffer (f_data f)).

(** A length-delimited field as [createOAuthField] writes one: tag, length,
    payload. *)
Definition ld_field (fieldNum : Z) (payload : list byte) : list byte :=
  encodeTag fieldNum 2 ++ encodeVarint (Z.of_nat (length payload)) ++ payload.

(* ------------------------------------------------------------------ *)
(** ** StateInjector.injectTokenAndReload *)

(** The [ItemTable] of [state.vscdb]: key to text value. *)
Abbreviation store := (gmap string string).

Definition newline : string := String (ascii_of_nat 10) EmptyString.

Definition is_ws (c : ascii) : bool :=
  match nat_of_ascii c with
  | 9 | 10 | 11 | 12 | 13 | 32 => true
  | _ => false
  end%nat.

Fixpoint trim_start (s : string) : string :=
  match s with
  | EmptyString => EmptyString
  | String c rest => if is_ws c then trim_start rest else s
  end.

(** [String.prototype.trim] on ASCII whitespace. *)
Definition trim (s : string) : string :=
  string_of_list_ascii
    (rev (list_ascii_of_string
            (trim_start (string_of_list_ascii
               (rev (list_ascii_of_string (trim_start s))))))).

Definition KEY_STATE : string := "jetskiStateSync.agentManagerInitState".
Definition KEY_ONBOARDING : string := "antigravityOnboarding".

(** [readDbValue]: the CLI prints the value followed by a newline;
    [stdout.trim() || null]. *)
Definition readDbValue (db : store) (key : string) : option string :=
  match db !! key with
  | None => None
  | Some v =>
      let out := trim (v ++ newline) in
      match out with
      | EmptyString => None
      | _ => Some out
      end
  end.

(** [writeDbValue]: [INSERT OR REPLACE]; the doubled quotes of the SQL
    literal are read back as single ones, so the row holds [value]. *)
Definition writeDbValue (db : store) (key value : string) : store :=
  <[key := value]> db.

Record TokenData : Type := mkToken {
  access_token : jsstr;
  refresh_token : jsstr;
  expires_in : Z
}.

Section Injector.

(** [Buffer.from(text, 'base64')] and [buffer.toString('base64')]. *)
Variable base64_decode : string -> list byte.
Variable base64_encode : list byte -> string.

(** The outcome and the store after the call; [dbPath] is what [getDbPath]
    found. *)
Definition injectTokenAndReload (dbPath : option string) (token : TokenData)
    (db : store) : outcome unit * store :=
  match dbPath with
  | None => (Throw DbNotFound, db)
  | Some _ =>
      let currentB64 := readDbValue db KEY_STATE in
      let blob := match currentB64 with
                  | None => []
                  | Some t => base64_decode t
                  end in
      match removeField blob 6 with
      | Throw e => (Throw e, db)
      | NoFuel => (NoFuel, db)
      | Done cleanData =>
          let newField := createOAuthField (Some (access_token token))
                            (refresh_token token) (expires_in token) in
          let finalData := cleanData ++ newField in
          let finalB64 := base64_encode finalData in
          let db1 := writeDbValue db KEY_STATE finalB64 in
          let db2 := writeDbValue db1 KEY_ONBOARDING "true" in
          (Done tt, db2)
      end
  end.

End Injector.

(* ------------------------------------------------------------------ *)
(** ** The SQL text of writeDbValue *)

(** [value.replace(/'/g, "''")]. *)
Fixpoint escapeValue (s : string) : string :=
  match s with
  | EmptyString => EmptyString
  | String c rest =>
      if Ascii.eqb c "'"%char then String "'"%char (String "'"%char (escapeValue rest))
      else String c (escapeValue rest)
  end.

(** A double quote character, as a string. *)
Definition dq : string := String (ascii_of_nat 34) EmptyString.

(** The command [writeDbValue] hands to the shell. *)
Definition writeDbCommand (dbPath key value : string) : string :=
  "sqlite3 " +:+ dq +:+ dbPath +:+ dq +:+ " " +:+ dq +:+
  "INSERT OR REPLACE INTO ItemTable (key, value) VALUES ('" +:+ key +:+ "', '" +:+
  escapeValue value +:+ "')" +:+ dq.

(** How SQLite reads the body of a string literal, after its opening
    quote: [''] stands for one quote, a lone quote ends the literal.
    Returns the text of the literal and what follows its closing quote. *)
Fixpoint sql_literal_body (s : string) : option (string * string) :=
  match s with
  | EmptyString => None
  | String c rest =>
      if Ascii.eqb c "'"%char then
        match rest with
        | String c2 rest2 =>
            if Ascii.eqb c2 "'"%char then
              option_map (fun '(v, r) => (String "'"%char v, r)) (sql_literal_body rest2)
            else Some (EmptyString, rest)
        | EmptyString => Some (EmptyString, EmptyString)
        end
      else option_map (fun '(v, r) => (String c v, r)) (sql_literal_body rest)
  end.

(* ------------------------------------------------------------------ *)
(** ** StateInjector.getDbPath *)

(** Truthiness of a string. *)
Definition str_truthy (s : string) : bool :=
  match s with EmptyString => false | _ => true end.

Section DbPath.

(** [path.dirname], [path.join], [os.homedir()] and
    [this.context.globalStorageUri.fsPath]. *)
Variable path_dirname : string -> string.
Variable path_join : string -> string -> string.
Variable homedir : string.
Variable globalStorageFsPath : string.

Definition dbCandidates : list string :=
  [path_join homedir "Library/Application Support/Antigravity/User/globalStorage/state.vscdb";
   path_join homedir "Library/Application Support/Cursor/User/globalStorage/state.vscdb";
   path_join homedir "Library/Application Support/Code/User/globalStorage/state.vscdb";
   path_join homedir ".config/Antigravity/User/globalStorage/state.vscdb"].

(** The [for (const p of candidates)] loop. *)
Fixpoint firstExisting (pathExists : string -> bool) (ps : list string) : option string :=
  match ps with
  | [] => None
  | p :: rest => if pathExists p then Some p else firstExisting pathExists rest
  end.

(** [getDbPath] on the cached [this.dbPath] and a view of the file system
    ([fs.pathExists]); returns the result and the new [this.dbPath]. *)
Definition getDbPath (pathExists : string -> bool) (dbPath : option string)
    : option string * option string :=
  let search :=
    let globalStorageDir := path_dirname globalStorageFsPath in
    let resolvedPath := path_join globalStorageDir "state.vscdb" in
    if pathExists resolvedPath then (Some resolvedPath, Some resolvedPath)
    else match firstExisting pathExists dbCandidates with
         | Some p => (Some p, Some p)
         | None => (None, dbPath)
         end in
  match dbPath with
  | Some p => if str_truthy p then (Some p, dbPath) else search
  | None => search
  end.

End DbPath.

(* ------------------------------------------------------------------ *)
(** ** DataManager: the account index *)

Record AccountSummary : Type := mkSummary {
  sum_id : string;
  sum_email : string;
  sum_name : option string;
  sum_created_at : Z;
  sum_last_used : Z
}.

Record AccountIndex : Type := mkIndex {
  version : string;
  accounts : list AccountSummary;
  current_account_id : option string
}.

(** The fields of an [Account] the index code reads. *)
Record Account : Type := mkAccount {
  acc_id : string;
  acc_email : string;
  acc_name : option string;
  acc_created_at : Z;
  acc_last_used : Z
}.

(** [Array.prototype.findIndex]; [None] for [-1]. *)
Fixpoint findIndex {A : Type} (p : A -> bool) (l : list A) : option nat :=
  match l with
  | [] => None
  | x :: rest =>
      if p x then Some O else option_map S (findIndex p rest)
  end.

(** The [summary] object of [addToIndex]. *)
Definition summary_of (account : Account) : AccountSummary :=
  mkSummary (acc_id account) (acc_email account) (acc_name account)
    (acc_created_at account) (acc_last_used account).

(** [index.accounts[i] = summary], [i] a result of [findIndex]. *)
Definition addToIndex_accounts (accs : list AccountSummary) (account : Account)
    : list AccountSummary :=
  let summary := summary_of account in
  match findIndex (fun a => String.eqb (sum_id a) (acc_id account)) accs with
  | Some existingIdx => <[existingIdx := summary]> accs
  | None =>
      match findIndex (fun a => String.eqb (sum_email a) (acc_email account)) accs with
      | Some emailIdx => <[emailIdx := summary]> accs
      | None => accs ++ [summary]
      end
  end.

(** The files of [~/.antigravity_tools]: [accounts.json] (absent: [None])
    and [accounts/<id>.json]. *)
Record DataFiles : Type := mkFiles {
  indexFile : option AccountIndex;
  accountFiles : gmap string Account
}.

Definition defaultIndex : AccountIndex := mkIndex "2.0" [] None.

Definition loadAccountIndex (d : DataFiles) : AccountIndex :=
  match indexFile d with
  | None => defaultIndex
  | Some index => index
  end.

Definition saveAccountIndex (d : DataFiles) (index : AccountIndex) : DataFiles :=
  mkFiles (Some index) (accountFiles d).

Definition loadAccount (d : DataFiles) (accountId : string) : option Account :=
  accountFiles d !! accountId.

Definition saveAccount (d : DataFiles) (account : Account) : DataFiles :=
  mkFiles (indexFile d) (<[acc_id account := account]> (accountFiles d)).

Definition addToIndex (d : DataFiles) (account : Account) : DataFiles :=
  let index := loadAccountIndex d in
  saveAccountIndex d
    (mkIndex (version index) (addToIndex_accounts (accounts index) account)
       (current_account_id index)).

Definition setCurrentAccount (d : DataFiles) (accountId : option string) : DataFiles :=
  let index := loadAccountIndex d in
  saveAccountIndex d (mkIndex (version index) (accounts index) accountId).

(** Steps 5 and after of [startLoginFlow], once the account is built:
    save it, add it to the index, and make it current when there is no
    current account. *)
Definition loginSaveAccount (d : DataFiles) (account : Account) : DataFiles :=
  let d1 := saveAccount d account in
  let d2 := addToIndex d1 account in
  let index := loadAccountIndex d2 in
  match current_account_id index with
  | Some cur => if str_truthy cur then d2 else setCurrentAccount d2 (Some (acc_id account))
  | None => setCurrentAccount d2 (Some (acc_id account))
  end.

(** The [for (const summary of index.accounts)] loop of [getAllAccounts]:
    the accounts whose file loads, in the order of the index. *)
Fixpoint collectAccounts (d : DataFiles) (summaries : list AccountSummary) : list Account :=
  match summaries with
  | [] => []
  | summary :: rest =>
      match loadAccount d (sum_id summary) with
      | Some acc => acc :: collectAccounts d rest
      | None => collectAccounts d rest
      end
  end.

Definition getAllAccounts (d : DataFiles) : list Account :=
  collectAccounts d (accounts (loadAccountIndex d)).

(* ------------------------------------------------------------------ *)
(** ** The expiry the switchAccount command injects *)

(** A number field of the stored token, [undefined] as [None]; [!x] holds
    for [undefined] and [0]. *)
Definition num_truthy (x : option Z) : bool :=
  match x with Some z => negb (z =? 0) | None => false end.

(** [let expiry = acc.token.expiry_timestamp; if (!expiry &&
    acc.token.expires_in) expiry = Math.floor(Date.now() / 1000) +
    acc.token.expires_in; if (!expiry) expiry = Math.floor(Date.now() /
    1000) + 3600;] with [Date.now()] the milliseconds [now]. *)
Definition switchExpiry (expiry_timestamp expires_in : option Z) (now : Z) : Z :=
  let expiry1 :=
    if negb (num_truthy expiry_timestamp) && num_truthy expires_in then
      match expires_in with Some e => Some (now / 1000 + e) | None => None end
    else expiry_timestamp in
  if negb (num_truthy expiry1) then now / 1000 + 3600
  else match expiry1 with Some e => e | None => now / 1000 + 3600 end.

(** [{ ...acc.token, expires_in: expiry }], the token [switchAccount]
    passes to [injectTokenAndReload]. *)
Definition switchInjectToken (access refresh : jsstr)
    (expiry_timestamp expires_in : option Z) (now : Z) : TokenData :=
  mkToken access refresh (switchExpiry expiry_timestamp expires_in now).

(* ------------------------------------------------------------------ *)
(** ** Vocabulary of the proofs *)

(** [tag >> 3] differs from the number being removed: the field is kept. *)
Definition kept (n : Z) (f : field) : bool := negb (f_num f =? n).

(** [next] lies at or after [d], or is past every buffer. *)
Definition off_ge (next : jsnum) (d : Z) : Prop :=
  match next with JFin m => d <= m | JInf => True end.

(** [next] lies strictly after [d]. *)
Definition off_gt (next : jsnum) (d : Z) : Prop :=
  match next with JFin m => d < m | JInf => True end.

(** An offset at or past the end stops the scan. *)
Definition past_end (buffer : list byte) (off : jsnum) : Prop :=
  match off with
  | JFin m => Z.of_nat (length buffer) <= m
  | JInf => True
  end.

(** Where the bytes of a field end: its end offset clamped to the buffer,
    as [subarray] clamps it. *)
Definition field_end (buffer : list byte) (f : field) : Z :=
  match f_end f with
  | JFin m => Z.min m (Z.of_nat (length buffer))
  | JInf => Z.of_nat (length buffer)
  end.

(** A buffer made of length-delimited fields, given by number and payload,
    and the filter [removeField] should amount to on it. *)
Definition ld_fields (L : list (Z * list byte)) : list byte :=
  concat (map (fun '(m, p) => ld_field m p) L).

Definition ld_kept (n : Z) (mp : Z * list byte) : bool := negb (fst mp =? n).

(** A message of varint and length-delimited fields, written the way
    [createOAuthField] writes them ([encodeTag], then [encodeVarint] of the
    value, or of the length followed by the payload). *)
Inductive pfield : Type :=
| LenDelim (m : Z) (p : list byte)
| VarintF (m : Z) (v : Z).

Definition pf_num (pf : pfield) : Z :=
  match pf with LenDelim m _ | VarintF m _ => m end.

Definition pf_bytes (pf : pfield) : list byte :=
  match pf with
  | LenDelim m p => ld_field m p
  | VarintF m v => encodeTag m 0 ++ encodeVarint v
  end.

Definition msg_bytes (L : list pfield) : list byte := concat (map pf_bytes L).

(** Field numbers below [2^28] (so that [fieldNum << 3] stays a positive
    int32) and varint values that are exact JavaScript numbers. *)
Definition pf_ok (pf : pfield) : Prop :=
  (0 <= pf_num pf < 2 ^ 28) /\
  (match pf return Prop with
   | VarintF _ v => 0 <= v < 2 ^ 53
   | LenDelim _ _ => True
   end).

Definition pf_kept (n : Z) (pf : pfield) : bool := negb (pf_num pf =? n).

(** A field met by the scan, read back: a varint field with its value, any
    other one as a length-delimited field with its payload. *)
Definition decode_field (buffer : list byte) (f : field) : pfield :=
  if f_wt f =? 0 then
    VarintF (f_num f) (match varint_value buffer f with JFin z => z | JInf => 0 end)
  else LenDelim (f_num f) (ld_payload buffer f).

(** The scan of [buffer] ends without error and reads back the fields
    [L]. *)
Definition reads (buffer : list byte) (L : list pfield) : Prop :=
  snd (scan buffer) = ScanEnd /\ map (decode_field buffer) (fst (scan buffer)) = L.

(** The fields of the [oauthInfo] message [createOAuthField] builds. *)
Definition oauthInfo_fields (accessToken refreshToken : jsstr) (expiry : Z)
    : list pfield :=
  (if js_truthy accessToken then [LenDelim 1 (utf8_encode accessToken)] else []) ++
  [LenDelim 2 (utf8_encode (js_of_string "Bearer"))] ++
  (if js_truthy refreshToken then [LenDelim 3 (utf8_encode refreshToken)] else []) ++
  [LenDelim 4 (msg_bytes [VarintF 1 expiry])].

(** A text codec of bytes, two letters from A to P per byte; it stands for
    the base64 functions in the examples. *)
Definition nibble_char (n : N) : ascii := ascii_of_N (65 + n).

Fixpoint letters_encode (bs : list byte) : string :=
  match bs with
  | [] => EmptyString
  | b :: rest =>
      String (nibble_char (N.div (Byte.to_N b) 16))
        (String (nibble_char (N.modulo (Byte.to_N b) 16)) (letters_encode rest))
  end.

Fixpoint letters_decode (s : string) : list byte :=
  match s with
  | String c1 (String c2 rest) =>
      match Byte.of_N ((N_of_ascii c1 - 65) * 16 + (N_of_ascii c2 - 65)) with
      | Some b => b :: letters_decode rest
      | None => letters_decode rest
      end
  | _ => []
  end.

(** The wire types [skipField] knows. *)
Definition supported_wt (w : Z) : Prop := w = 0 \/ w = 1 \/ w = 2 \/ w = 5.

(* ================================================================== *)
(** * Proofs *)

(* ------------------------------------------------------------------ *)
(** ** Bytes and small bit facts *)

Lemma bval_range (b : byte) : 0 <= bval b <= 255.
Proof. unfold bval. pose proof (Byte.to_N_bounded b). lia. Qed.

Lemma bval_byte_of_Z (z : Z) : bval (byte_of_Z z) = z mod 256.
Proof.
  unfold byte_of_Z, bval.
  pose proof (Z.mod_pos_bound z 256 ltac:(lia)) as Hb.
  pose proof (Byte.to_of_N_option_map (Z.to_N (z mod 256))) as Hm.
  assert (Hle : (Z.to_N (z mod 256) <=? 255)%N = true) by (apply N.leb_le; lia).
  rewrite Hle in Hm.
  destruct (Byte.of_N (Z.to_N (z mod 256))) as [b|]; simpl in Hm;
    inversion Hm as [Hn]; rewrite Hn; lia.
Qed.

(** A property of the 128 values [0..127], checked one by one. *)
Lemma below_128 (P : Z -> bool) :
  forallb P (map Z.of_nat (seq 0 128)) = true ->
  forall x, 0 <= x < 128 -> P x = true.
Proof.
  intros H x Hx. rewrite forallb_forall in H. apply H.
  apply in_map_iff. exists (Z.to_nat x). split; [lia|].
  apply in_seq. lia.
Qed.

Lemma cont_byte (x : Z) : 0 <= x < 128 ->
  Z.lor x 128 = x + 128 /\
  Z.land (Z.lor x 128 mod 256) 127 = x /\
  (Z.land (Z.lor x 128 mod 256) 128 =? 0) = false.
Proof.
  intros Hx.
  pose proof (below_128
    (fun x => (Z.lor x 128 =? x + 128) &&
              (Z.land (Z.lor x 128 mod 256) 127 =? x) &&
              negb (Z.land (Z.lor x 128 mod 256) 128 =? 0))
    ltac:(vm_compute; reflexivity) x Hx) as H.
  apply andb_prop in H as [H H3]. apply andb_prop in H as [H1 H2].
  apply Z.eqb_eq in H1, H2. apply negb_true_iff in H3. auto.
Qed.

Lemma last_byte (x : Z) : 0 <= x < 128 ->
  x mod 256 = x /\ Z.land (x mod 256) 127 = x /\ (Z.land (x mod 256) 128 =? 0) = true.
Proof.
  intros Hx.
  pose proof (below_128
    (fun x => (x mod 256 =? x) && (Z.land (x mod 256) 127 =? x) &&
              (Z.land (x mod 256) 128 =? 0))
    ltac:(vm_compute; reflexivity) x Hx) as H.
  apply andb_prop in H as [H H3]. apply andb_prop in H as [H1 H2].
  apply Z.eqb_eq in H1, H2. auto.
Qed.

Lemma land_127_range (v : Z) : 0 <= Z.land v 127 < 128.
Proof.
  change 127 with (Z.ones 7). rewrite Z.land_ones by lia.
  apply Z.mod_pos_bound. lia.
Qed.

(** The low seven bits placed at [s] and the rest placed at [s + 7] make up
    [v] placed at [s]. *)
Lemma lor_split (acc v s : Z) : 0 <= s ->
  Z.lor (Z.lor acc (Z.shiftl (Z.land v 127) s)) (Z.shiftl (Z.shiftr v 7) (s + 7))
  = Z.lor acc (Z.shiftl v s).
Proof.
  intros Hs. apply Z.bits_inj'. intros i Hi.
  rewrite !Z.lor_spec, !Z.shiftl_spec by lia.
  change 127 with (Z.ones 7).
  destruct (Z.lt_ge_cases (i - s) 0).
  - rewrite (Z.testbit_neg_r (Z.land v (Z.ones 7))) by lia.
    rewrite (Z.testbit_neg_r (Z.shiftr v 7)) by lia.
    rewrite (Z.testbit_neg_r v) by lia. destruct (Z.testbit acc i); reflexivity.
  - rewrite Z.land_spec.
    destruct (Z.lt_ge_cases (i - s) 7).
    + rewrite Z.ones_spec_low by lia.
      rewrite (Z.testbit_neg_r (Z.shiftr v 7)) by lia.
      destruct (Z.testbit acc i), (Z.testbit v (i - s)); reflexivity.
    + rewrite Z.ones_spec_high by lia.
      rewrite Z.shiftr_spec by lia.
      replace (i - (s + 7) + 7) with (i - s) by lia.
      destruct (Z.testbit acc i), (Z.testbit v (i - s)); reflexivity.
Qed.

(* ------------------------------------------------------------------ *)
(** ** Varint codec *)

Lemma shiftr_7_bound (v : Z) (k : nat) :
  0 <= v < 2 ^ (7 * Z.of_nat (S (S k))) ->
  0 <= Z.shiftr v 7 < 2 ^ (7 * Z.of_nat (S k)).
Proof.
  intros Hv. rewrite Z.shiftr_div_pow2 by lia. split.
  - apply Z.div_pos; lia.
  - apply Z.div_lt_upper_bound; [lia|].
    rewrite <- Z.pow_add_r by lia.
    replace (7 + 7 * Z.of_nat (S k)) with (7 * Z.of_nat (S (S k))) by lia.
    lia.
Qed.

Lemma encode_loop_S (f : nat) (v : Z) :
  encode_loop (S f) v =
  if 128 <=? v then Z.lor (Z.land v 127) 128 :: encode_loop f (Z.shiftr v 7)
  else [v].
Proof. reflexivity. Qed.

Lemma read_loop_encode (f : nat) (v : Z) (rest : list byte) (acc s : Z) :
  0 <= v < 2 ^ (7 * Z.of_nat (S f)) -> 0 <= s ->
  read_loop (bytes_of_Z (encode_loop (S f) v) ++ rest) acc s
  = (Z.lor acc (Z.shiftl v s), length (encode_loop (S f) v)).
Proof.
  revert v acc s.
  induction f as [|f IH]; intros v acc s Hv Hs; rewrite encode_loop_S;
    destruct (128 <=? v) eqn:E.
  - apply Z.leb_le in E. simpl in Hv. lia.
  - apply Z.leb_gt in E. simpl. rewrite bval_byte_of_Z.
    destruct (last_byte v ltac:(lia)) as (_ & -> & ->). reflexivity.
  - apply Z.leb_le in E.
    cbn [bytes_of_Z map app read_loop]. rewrite bval_byte_of_Z.
    destruct (cont_byte (Z.land v 127) (land_127_range v)) as (_ & -> & ->).
    change (map byte_of_Z (encode_loop (S f) (Z.shiftr v 7)) ++ rest)
      with (bytes_of_Z (encode_loop (S f) (Z.shiftr v 7)) ++ rest).
    rewrite IH by (try apply shiftr_7_bound; lia).
    rewrite lor_split by lia. reflexivity.
  - apply Z.leb_gt in E. simpl. rewrite bval_byte_of_Z.
    destruct (last_byte v ltac:(lia)) as (_ & -> & ->). reflexivity.
Qed.

Lemma encode_fuel_enough (v : Z) : 0 <= v ->
  0 <= v < 2 ^ (7 * Z.of_nat (S (Z.to_nat (Z.log2 v)))).
Proof.
  intros Hv. split; [lia|].
  pose proof (Z.log2_nonneg v).
  destruct (Z.eq_dec v 0) as [->|Hnz]; [simpl; lia|].
  destruct (Z.log2_spec v ltac:(lia)) as [_ Hlt].
  eapply Z.lt_le_trans; [exact Hlt|].
  apply Z.pow_le_mono_r; lia.
Qed.

Lemma readVarint_encode (pre rest : list byte) (v : Z) : 0 <= v ->
  readVarint (pre ++ encodeVarint v ++ rest) (Z.of_nat (length pre))
  = (Number_of_bigint v, Z.of_nat (length pre) + Z.of_nat (length (encodeVarint v))).
Proof.
  intros Hv. unfold readVarint. rewrite Nat2Z.id, drop_app_length.
  unfold encodeVarint.
  rewrite read_loop_encode by (try apply encode_fuel_enough; lia).
  unfold bytes_of_Z. rewrite length_map, Z.lor_0_l, Z.shiftl_0_r. reflexivity.
Qed.

Lemma encode_loop_nonempty (f : nat) (v : Z) :
  (1 <= length (encode_loop (S f) v))%nat.
Proof. rewrite encode_loop_S. destruct (128 <=? v); simpl; lia. Qed.

(** Byte [i] of the encoding carries bits [7i .. 7i+6] of [v], with 128
    added on every byte but the last; no bit of [v] is left over. *)
Lemma encode_loop_shape (f : nat) (v : Z) :
  0 <= v < 2 ^ (7 * Z.of_nat (S f)) ->
  (forall i : nat, (i < length (encode_loop (S f) v))%nat ->
     nth i (encode_loop (S f) v) 0 =
     Z.land (Z.shiftr v (7 * Z.of_nat i)) 127 +
     (if (S i <? length (encode_loop (S f) v))%nat then 128 else 0)) /\
  Z.shiftr v (7 * Z.of_nat (length (encode_loop (S f) v))) = 0.
Proof.
  revert v. induction f as [|f IH]; intros v Hv; rewrite encode_loop_S;
    destruct (128 <=? v) eqn:E.
  - apply Z.leb_le in E. simpl in Hv. lia.
  - apply Z.leb_gt in E. destruct (last_byte v ltac:(lia)) as (Hm & Hl & _).
    split.
    + intros [|i] Hi; simpl in Hi; [|lia]. simpl.
      rewrite Z.shiftr_0_r, <- Hm, Hl. lia.
    + simpl. rewrite Z.shiftr_div_pow2 by lia. apply Z.div_small. simpl. lia.
  - apply Z.leb_le in E.
    destruct (IH (Z.shiftr v 7) ltac:(apply shiftr_7_bound; lia)) as [IH1 IH2].
    pose proof (encode_loop_nonempty f (Z.shiftr v 7)) as Hne.
    destruct (cont_byte (Z.land v 127) (land_127_range v)) as (Hc & _ & _).
    remember (encode_loop (S f) (Z.shiftr v 7)) as L eqn:HL.
    split.
    + intros [|i] Hi.
      * simpl. rewrite Z.shiftr_0_r.
        destruct (Nat.ltb_spec 1 (S (length L))); [|lia].
        pose proof (land_127_range v). lia.
      * simpl in Hi |- *. rewrite IH1 by lia.
        rewrite Z.shiftr_shiftr by lia.
        replace (7 + 7 * Z.of_nat i) with (7 * Z.of_nat (S i)) by lia.
        reflexivity.
    + simpl length. rewrite <- IH2, Z.shiftr_shiftr by lia. f_equal. lia.
  - apply Z.leb_gt in E. destruct (last_byte v ltac:(lia)) as (Hm & Hl & _).
    split.
    + intros [|i] Hi; simpl in Hi; [|lia]. simpl.
      rewrite Z.shiftr_0_r, <- Hm, Hl. lia.
    + simpl. rewrite Z.shiftr_div_pow2 by lia. apply Z.div_small. simpl. lia.
Qed.

(** C6. For every non-negative integer [v] that is a JavaScript number (the
    parameter type of [encodeVarint]; the unsigned integers up to [2^53] are
    among them, so are [0], [127], [128], [16384] and [2^35]),
    [readVarint(encodeVarint(v), 0)] gives back exactly [v] and stops after
    the last byte; byte [i] of [encodeVarint(v)] holds bits [7i .. 7i+6] of
    [v] (low-order group first) plus the continuation bit 0x80, which is set
    on every byte except the last; and the bytes carry all bits of [v]. *)
Theorem encodeVarint_readVarint_roundtrip (v : Z) :
  0 <= v -> Number_of_bigint v = JFin v ->
  readVarint (encodeVarint v) 0 = (JFin v, Z.of_nat (length (encodeVarint v))) /\
  (forall i : nat, (i < length (encodeVarint v))%nat ->
     bval (nth i (encodeVarint v) Byte.x00) =
     Z.land (Z.shiftr v (7 * Z.of_nat i)) 127 +
     (if (S i <? length (encodeVarint v))%nat then 128 else 0)) /\
  Z.shiftr v (7 * Z.of_nat (length (encodeVarint v))) = 0.
Proof.
  intros Hv Hn.
  pose proof (encode_fuel_enough v Hv) as Hf.
  destruct (encode_loop_shape _ _ Hf) as [Hs1 Hs2].
  split; [|split].
  - pose proof (readVarint_encode [] [] v Hv) as H.
    rewrite app_nil_l, app_nil_r in H. change (Z.of_nat (length [])) with 0 in H.
    rewrite H, Hn, Z.add_0_l. reflexivity.
  - intros i Hi. unfold encodeVarint, bytes_of_Z in *.
    rewrite length_map in *.
    change Byte.x00 with (byte_of_Z 0). rewrite map_nth, bval_byte_of_Z.
    rewrite Hs1 by lia. apply Z.mod_small.
    pose proof (land_127_range (Z.shiftr v (7 * Z.of_nat i))).
    destruct (S i <? _)%nat; lia.
  - unfold encodeVarint, bytes_of_Z. rewrite length_map. exact Hs2.
Qed.

Lemma encodeVarint_readVarint_roundtrip_witness :
  0 <= 2 ^ 35 /\ Number_of_bigint (2 ^ 35) = JFin (2 ^ 35) /\
  readVarint (encodeVarint (2 ^ 35)) 0
  = (JFin (2 ^ 35), Z.of_nat (length (encodeVarint (2 ^ 35)))).
Proof.
  assert (H0 : 0 <= 2 ^ 35) by lia.
  assert (H1 : Number_of_bigint (2 ^ 35) = JFin (2 ^ 35)) by reflexivity.
  split; [exact H0|]. split; [exact H1|].
  exact (proj1 (encodeVarint_readVarint_roundtrip (2 ^ 35) H0 H1)).
Defined.

Example encodeVarint_examples :
  map (fun v => readVarint (encodeVarint v) 0) [0; 127; 128; 16384; 2 ^ 35]
  = [(JFin 0, 1); (JFin 127, 1); (JFin 128, 2); (JFin 16384, 3);
     (JFin (2 ^ 35), 6)].
Proof. vm_compute. reflexivity. Qed.

(* ------------------------------------------------------------------ *)
(** ** Offsets move forward *)

Lemma read_loop_nonneg (bs : list byte) (acc s : Z) :
  0 <= acc -> 0 <= s -> 0 <= fst (read_loop bs acc s).
Proof.
  revert acc s. induction bs as [|b bs IH]; intros acc s Ha Hs; simpl; [lia|].
  assert (Hr : 0 <= Z.lor acc (Z.shiftl (Z.land (bval b) 127) s)).
  { apply Z.lor_nonneg. split; [lia|].
    apply Z.shiftl_nonneg. pose proof (land_127_range (bval b)). lia. }
  destruct (Z.land (bval b) 128 =? 0); [simpl; lia|].
  specialize (IH _ (s + 7) Hr ltac:(lia)).
  destruct (read_loop bs _ (s + 7)); simpl in *; lia.
Qed.

Lemma read_loop_count (bs : list byte) (acc s : Z) :
  (snd (read_loop bs acc s) <= length bs)%nat /\
  (bs <> [] -> (1 <= snd (read_loop bs acc s))%nat).
Proof.
  revert acc s. induction bs as [|b bs IH]; intros acc s; simpl.
  { split; [lia|]. intros H. congruence. }
  destruct (Z.land (bval b) 128 =? 0); [simpl; split; intros; lia|].
  destruct (IH (Z.lor acc (Z.shiftl (Z.land (bval b) 127) s)) (s + 7)) as [H _].
  destruct (read_loop bs _ (s + 7)); simpl in *; split; intros; lia.
Qed.

(** The tag varint of a field inside the buffer takes at least one byte
    and does not read past the end. *)
Lemma readVarint_progress (buffer : list byte) (o : Z) :
  0 <= o < Z.of_nat (length buffer) ->
  o < snd (readVarint buffer o) <= Z.of_nat (length buffer).
Proof.
  intros Ho. unfold readVarint.
  destruct (read_loop_count (skipn (Z.to_nat o) buffer) 0 0) as [H1 H2].
  rewrite length_drop in H1.
  assert (Hne : skipn (Z.to_nat o) buffer <> []).
  { intros E. apply (f_equal (@length byte)) in E.
    rewrite length_drop in E. simpl in E. lia. }
  specialize (H2 Hne).
  destruct (read_loop _ 0 0); simpl in *; lia.
Qed.

Lemma readVarint_ge (buffer : list byte) (o : Z) :
  o <= snd (readVarint buffer o).
Proof.
  unfold readVarint. destruct (read_loop _ 0 0). simpl. lia.
Qed.

Lemma readVarint_value (buffer : list byte) (o : Z) :
  exists r, 0 <= r /\ fst (readVarint buffer o) = Number_of_bigint r.
Proof.
  unfold readVarint.
  pose proof (read_loop_nonneg (skipn (Z.to_nat o) buffer) 0 0 ltac:(lia) ltac:(lia)).
  destruct (read_loop _ 0 0) as [r k]. exists r. simpl in *. auto.
Qed.

(** [Number(z)] of a non-negative [z] is [z] itself below [2^53], and at
    least [2^53] or [+Infinity] above. *)
Lemma Number_of_bigint_ge (z : Z) : 0 <= z ->
  match Number_of_bigint z with
  | JFin m => (m = z /\ z < 2 ^ 53) \/ 2 ^ 53 <= m
  | JInf => True
  end.
Proof.
  intros Hz. unfold Number_of_bigint.
  destruct (Z.ltb_spec z (2 ^ 53)) as [Hlt|Hge]; [left; auto|].
  cbv zeta.
  assert (Hl : 53 <= Z.log2 z).
  { apply Z.log2_le_pow2; lia. }
  pose proof (Z.log2_spec z ltac:(lia)) as [Hlo _].
  set (e := Z.log2 z - 52).
  assert (Hq : 2 ^ 52 <= Z.shiftr z e).
  { rewrite Z.shiftr_div_pow2 by lia.
    apply Z.div_le_lower_bound; [lia|].
    rewrite <- Z.pow_add_r by lia.
    replace (e + 52) with (Z.log2 z) by lia. lia. }
  destruct (_ || _);
    match goal with
    | |- context [if 2 ^ 1024 <=? ?m then _ else _] =>
        destruct (2 ^ 1024 <=? m); [exact I|right]
    end.
  - assert (2 ^ 52 * 2 ^ e <= (Z.shiftr z e + 1) * 2 ^ e)
      by (apply Z.mul_le_mono_nonneg_r; lia).
    rewrite <- Z.pow_add_r in H by lia.
    assert (2 ^ 53 <= 2 ^ (52 + e)) by (apply Z.pow_le_mono_r; lia). lia.
  - assert (2 ^ 52 * 2 ^ e <= Z.shiftr z e * 2 ^ e)
      by (apply Z.mul_le_mono_nonneg_r; lia).
    rewrite <- Z.pow_add_r in H by lia.
    assert (2 ^ 53 <= 2 ^ (52 + e)) by (apply Z.pow_le_mono_r; lia). lia.
Qed.

Lemma Number_of_bigint_off_ge (z d : Z) : 0 <= d <= z -> d < 2 ^ 53 ->
  off_ge (Number_of_bigint z) d.
Proof.
  intros Hd Hb. pose proof (Number_of_bigint_ge z ltac:(lia)) as H.
  unfold off_ge. destruct (Number_of_bigint z); [lia|exact I].
Qed.

Lemma skipField_cases (buffer : list byte) (d wt : Z) :
  (wt = 0 /\ skipField buffer d wt = inr (JFin (snd (readVarint buffer d)))) \/
  (wt = 1 /\ skipField buffer d wt = inr (Number_of_bigint (d + 8))) \/
  (wt = 2 /\ skipField buffer d wt =
     inr (js_add (JFin (snd (readVarint buffer d))) (fst (readVarint buffer d)))) \/
  (wt = 5 /\ skipField buffer d wt = inr (Number_of_bigint (d + 4))) \/
  (wt <> 0 /\ wt <> 1 /\ wt <> 2 /\ wt <> 5 /\
   skipField buffer d wt = inl (UnknownWireType wt)).
Proof.
  unfold skipField.
  destruct (readVarint buffer d) as [len newOffset].
  destruct wt as [|[[[p|p|]|[p|p|]|]|[[p|p|]|[p|p|]|]|]|p];
    first [ left; split; reflexivity
          | right; left; split; reflexivity
          | right; right; left; split; reflexivity
          | right; right; right; left; split; reflexivity
          | right; right; right; right; repeat split; discriminate ].
Qed.

(** [skipField] never moves back. *)
Lemma skipField_progress (buffer : list byte) (d wt : Z) (next : jsnum) :
  0 <= d < 2 ^ 53 -> skipField buffer d wt = inr next -> off_ge next d.
Proof.
  intros Hd Hs.
  destruct (skipField_cases buffer d wt)
    as [[_ E]|[[_ E]|[[_ E]|[[_ E]|(_ & _ & _ & _ & E)]]]];
    rewrite E in Hs; inversion Hs; subst next.
  - simpl. apply readVarint_ge.
  - apply Number_of_bigint_off_ge; lia.
  - pose proof (readVarint_ge buffer d) as Hg.
    destruct (readVarint_value buffer d) as (r & Hr & Hv).
    rewrite Hv.
    pose proof (Number_of_bigint_ge r Hr) as Hn.
    destruct (Number_of_bigint r) as [x|]; simpl; [|exact I].
    apply Number_of_bigint_off_ge; lia.
  - apply Number_of_bigint_off_ge; lia.
Qed.

(* ------------------------------------------------------------------ *)
(** ** removeField is a filter over the scan *)

Lemma remove_loop_scan (buffer : list byte) (n : Z) (fuel : nat) (off : jsnum)
    (chunks : list (list byte)) :
  remove_loop buffer n fuel off chunks =
  match scan_loop buffer fuel off with
  | (fs, ScanEnd) => Done (chunks ++ map (span buffer) (List.filter (kept n) fs))
  | (_, ScanFail _ _ _ e) => Throw e
  | (_, ScanFuel) => NoFuel
  end.
Proof.
  revert off chunks.
  induction fuel as [|fuel IH]; intros off chunks; [reflexivity|].
  cbn [remove_loop scan_loop].
  destruct off as [o|]; [|rewrite app_nil_r; reflexivity].
  destruct (o <? Z.of_nat (length buffer)); [|rewrite app_nil_r; reflexivity].
  destruct (readVarint buffer o) as [tag newOffset].
  destruct (skipField buffer newOffset (wire_type_of tag)) as [e|next];
    [destruct (field_num_of tag =? n); reflexivity|].
  destruct (field_num_of tag =? n) eqn:Hn; rewrite IH;
    destruct (scan_loop buffer fuel next) as [fs [| ? ? ? ? |]]; try reflexivity;
    cbn [List.filter]; unfold kept; cbn [f_num]; rewrite Hn; cbn [negb].
  - reflexivity.
  - rewrite <- app_assoc. reflexivity.
Qed.

Lemma removeField_scan (buffer : list byte) (n : Z) :
  removeField buffer n =
  match scan buffer with
  | (fs, ScanEnd) => Done (concat (map (span buffer) (List.filter (kept n) fs)))
  | (_, ScanFail _ _ _ e) => Throw e
  | (_, ScanFuel) => NoFuel
  end.
Proof.
  unfold removeField, scan. rewrite remove_loop_scan.
  destruct (scan_loop _ _ _) as [fs [| ? ? ? ? |]]; reflexivity.
Qed.

(** The field the loop reads at [o] ends strictly after [o]. *)
Lemma loop_step_progress (buffer : list byte) (o : Z) :
  Z.of_nat (length buffer) < 2 ^ 53 -> 0 <= o < Z.of_nat (length buffer) ->
  let '(tag, d) := readVarint buffer o in
  o < d /\
  forall next, skipField buffer d (wire_type_of tag) = inr next -> off_gt next o.
Proof.
  intros Hl Ho. pose proof (readVarint_progress buffer o Ho) as Hp.
  destruct (readVarint buffer o) as [tag d]. simpl in Hp.
  split; [lia|]. intros next Hs.
  pose proof (skipField_progress buffer d _ next ltac:(lia) Hs) as H.
  unfold off_ge, off_gt in *. destruct next; lia.
Qed.

Lemma scan_loop_fuel (buffer : list byte) (fuel : nat) (o : Z) :
  Z.of_nat (length buffer) < 2 ^ 53 -> 0 <= o ->
  (Z.to_nat (Z.of_nat (length buffer) - o) < fuel)%nat ->
  snd (scan_loop buffer fuel (JFin o)) <> ScanFuel.
Proof.
  intros Hl. revert o.
  induction fuel as [|fuel IH]; intros o Ho Hf; [lia|].
  cbn [scan_loop].
  destruct (Z.ltb_spec o (Z.of_nat (length buffer))) as [Hlt|]; [|discriminate].
  pose proof (loop_step_progress buffer o Hl ltac:(lia)) as Hp.
  destruct (readVarint buffer o) as [tag d]. destruct Hp as [Hd Hp].
  destruct (skipField buffer d (wire_type_of tag)) as [e|next] eqn:Hs;
    [discriminate|].
  specialize (Hp next eq_refl).
  destruct fuel as [|fuel']; [lia|].
  destruct next as [m|].
  - simpl in Hp. pose proof (IH m ltac:(lia) ltac:(lia)) as H.
    destruct (scan_loop buffer (S fuel') (JFin m)). exact H.
  - discriminate.
Qed.

Lemma scan_fuel (buffer : list byte) :
  Z.of_nat (length buffer) < 2 ^ 53 -> snd (scan buffer) <> ScanFuel.
Proof.
  intros Hl. apply scan_loop_fuel; lia.
Qed.

(** C10. Every call of [removeField] on a buffer (whose length, as for any
    Node.js Buffer, is below [2^53]) ends: the loop never runs out of its
    [buffer.length + 1] rounds; in every round the tag varint read at an
    offset inside the buffer takes at least one byte, and the offset
    [skipField] returns, when it does not throw, lies strictly after the
    round's start (or is [+Infinity]), so the offset strictly increases
    until it reaches or passes the end. *)
Theorem removeField_terminates (buffer : list byte) (n : Z) :
  Z.of_nat (length buffer) < 2 ^ 53 ->
  removeField buffer n <> NoFuel /\
  (forall o, 0 <= o < Z.of_nat (length buffer) ->
     let '(tag, d) := readVarint buffer o in
     o < d /\
     forall next, skipField buffer d (wire_type_of tag) = inr next ->
       off_gt next o).
Proof.
  intros Hl. split.
  - rewrite removeField_scan. pose proof (scan_fuel buffer Hl) as H.
    destruct (scan buffer) as [fs [| ? ? ? ? |]]; try discriminate.
    exfalso. apply H. reflexivity.
  - intros o Ho. apply loop_step_progress; assumption.
Qed.

Lemma removeField_terminates_witness :
  Z.of_nat (length (bytes_of_Z [8; 150; 1; 18; 1; 65])) < 2 ^ 53 /\
  removeField (bytes_of_Z [8; 150; 1; 18; 1; 65]) 1 <> NoFuel.
Proof.
  assert (H : Z.of_nat (length (bytes_of_Z [8; 150; 1; 18; 1; 65])) < 2 ^ 53)
    by (vm_compute; reflexivity).
  split; [exact H|].
  exact (proj1 (removeField_terminates (bytes_of_Z [8; 150; 1; 18; 1; 65]) 1 H)).
Defined.

(* ------------------------------------------------------------------ *)
(** ** The spans of the scan tile the buffer *)

Lemma scan_loop_past (buffer : list byte) (fuel : nat) (off : jsnum) :
  past_end buffer off -> fst (scan_loop buffer fuel off) = [].
Proof.
  intros Hp. destruct fuel as [|fuel]; [reflexivity|].
  destruct off as [m|]; [|reflexivity]. simpl in Hp |- *.
  destruct (Z.ltb_spec m (Z.of_nat (length buffer))); [lia|reflexivity].
Qed.

Lemma scan_loop_end_fuel (buffer : list byte) (fuel : nat) (off : jsnum)
    (fs : list field) :
  scan_loop buffer fuel off = (fs, ScanEnd) -> (1 <= fuel)%nat.
Proof. destruct fuel; [discriminate|lia]. Qed.

Lemma span_clamped (buffer : list byte) (f : field) :
  0 <= f_start f ->
  span buffer f =
  match f_end f with
  | JFin m => firstn (Z.to_nat (Z.min m (Z.of_nat (length buffer)) - f_start f))
                (skipn (Z.to_nat (f_start f)) buffer)
  | JInf => skipn (Z.to_nat (f_start f)) buffer
  end.
Proof.
  intros Hs. unfold span, subarray. destruct (f_end f) as [m|]; [reflexivity|].
  apply take_ge. rewrite length_drop. lia.
Qed.

Lemma take_drop_join (buffer : list byte) (o m s : Z) :
  0 <= o <= m -> m <= s ->
  firstn (Z.to_nat (m - o)) (skipn (Z.to_nat o) buffer) ++
  firstn (Z.to_nat (s - m)) (skipn (Z.to_nat m) buffer)
  = firstn (Z.to_nat (s - o)) (skipn (Z.to_nat o) buffer).
Proof.
  intros Hom Hms.
  replace (Z.to_nat m) with (Z.to_nat o + Z.to_nat (m - o))%nat by lia.
  rewrite <- drop_drop, take_take_drop. f_equal. lia.
Qed.

Lemma scan_cover (buffer : list byte) (fuel : nat) (o : Z) (fs : list field) :
  Z.of_nat (length buffer) < 2 ^ 53 -> 0 <= o ->
  scan_loop buffer fuel (JFin o) = (fs, ScanEnd) ->
  concat (map (span buffer) fs) = skipn (Z.to_nat o) buffer.
Proof.
  intros Hl. revert o fs.
  induction fuel as [|fuel IH]; intros o fs Ho H; [discriminate|].
  cbn [scan_loop] in H.
  destruct (Z.ltb_spec o (Z.of_nat (length buffer))) as [Hlt|Hge].
  2:{ inversion H. simpl. symmetry. apply drop_ge. lia. }
  pose proof (loop_step_progress buffer o Hl ltac:(lia)) as Hp.
  destruct (readVarint buffer o) as [tag d]. destruct Hp as [Hd Hp].
  destruct (skipField buffer d (wire_type_of tag)) as [e|next] eqn:Hs;
    [discriminate|].
  specialize (Hp next eq_refl).
  destruct (scan_loop buffer fuel next) as [fs' st] eqn:Hr.
  inversion H; subst fs st. clear H.
  cbn [map concat]. rewrite span_clamped by (simpl; lia). cbn [f_end f_start].
  destruct next as [m|].
  - simpl in Hp.
    destruct (Z.ltb_spec m (Z.of_nat (length buffer))) as [Hm|Hm].
    + rewrite (IH m fs' ltac:(lia) Hr), Z.min_l by lia.
      replace (Z.to_nat m) with (Z.to_nat o + Z.to_nat (m - o))%nat by lia.
      rewrite <- drop_drop, take_drop. reflexivity.
    + pose proof (scan_loop_past buffer fuel (JFin m) Hm) as Hn.
      rewrite Hr in Hn. simpl in Hn. subst fs'. simpl. rewrite app_nil_r.
      rewrite Z.min_r by lia. apply take_ge. rewrite length_drop. lia.
  - pose proof (scan_loop_past buffer fuel JInf I) as Hn.
    rewrite Hr in Hn. simpl in Hn. subst fs'. simpl. apply app_nil_r.
Qed.

Lemma scan_split (buffer : list byte) (fuel : nat) (o : Z)
    (pre : list field) (f : field) (post : list field) (st : scan_stop) :
  Z.of_nat (length buffer) < 2 ^ 53 -> 0 <= o ->
  scan_loop buffer fuel (JFin o) = (pre ++ f :: post, st) ->
  o <= f_start f < Z.of_nat (length buffer) /\
  concat (map (span buffer) pre)
  = firstn (Z.to_nat (f_start f - o)) (skipn (Z.to_nat o) buffer) /\
  off_gt (f_end f) (f_start f) /\
  exists fuel', scan_loop buffer fuel' (f_end f) = (post, st).
Proof.
  intros Hl. revert fuel o.
  induction pre as [|g pre IH]; intros fuel o Ho H;
    (destruct fuel as [|fuel]; [inversion H as [Hx]; destruct pre; discriminate|]);
    cbn [scan_loop] in H;
    (destruct (Z.ltb_spec o (Z.of_nat (length buffer))) as [Hlt|Hge];
      [|inversion H as [Hx]; destruct pre; discriminate]);
    pose proof (loop_step_progress buffer o Hl ltac:(lia)) as Hp;
    destruct (readVarint buffer o) as [tag d]; destruct Hp as [Hd Hp];
    (destruct (skipField buffer d (wire_type_of tag)) as [e|next] eqn:Hs;
      [inversion H as [Hx]; destruct pre; discriminate|]);
    specialize (Hp next eq_refl);
    destruct (scan_loop buffer fuel next) as [fs' st'] eqn:Hr;
    inversion H; subst; clear H.
  - simpl. split; [lia|]. split; [rewrite Z.sub_diag; reflexivity|].
    split; [exact Hp|]. exists fuel. exact Hr.
  - destruct next as [m|].
    2:{ pose proof (scan_loop_past buffer fuel JInf I) as Hn.
        rewrite Hr in Hn. simpl in Hn. destruct pre; discriminate. }
    simpl in Hp.
    destruct (Z.ltb_spec m (Z.of_nat (length buffer))) as [Hm|Hm].
    2:{ pose proof (scan_loop_past buffer fuel (JFin m) Hm) as Hn.
        rewrite Hr in Hn. simpl in Hn. destruct pre; discriminate. }
    destruct (IH fuel m ltac:(lia) Hr) as (Hs1 & Hs2 & Hs3 & Hs4).
    split; [lia|]. split; [|split; [exact Hs3|exact Hs4]].
    cbn [map concat]. rewrite Hs2.
    unfold span, subarray. cbn [f_start f_end]. rewrite Z.min_l by lia.
    apply take_drop_join; lia.
Qed.

(** C1. If the scan of a buffer [B] ends without error and no field it
    meets has number [n], then [removeField(B, n)] returns [B] itself, byte
    for byte. [B] is any Node.js Buffer (length below [2^53]). *)
Theorem removeField_absent_identity (B : list byte) (n : Z) :
  Z.of_nat (length B) < 2 ^ 53 ->
  snd (scan B) = ScanEnd ->
  (forall f, In f (fst (scan B)) -> f_num f <> n) ->
  removeField B n = Done B.
Proof.
  intros Hl Hend Hnot. rewrite removeField_scan.
  destruct (scan B) as [fs st] eqn:Hs. simpl in Hend, Hnot. subst st.
  rewrite (forallb_filter_id (kept n) fs).
  - f_equal. unfold scan in Hs. rewrite (scan_cover B _ 0 fs Hl ltac:(lia) Hs).
    reflexivity.
  - apply forallb_forall. intros f Hf. unfold kept.
    apply negb_true_iff, Z.eqb_neq. auto.
Qed.

Lemma removeField_absent_identity_witness :
  Z.of_nat (length (bytes_of_Z [10; 1; 120; 74; 1; 7])) < 2 ^ 53 /\
  snd (scan (bytes_of_Z [10; 1; 120; 74; 1; 7])) = ScanEnd /\
  (forall f, In f (fst (scan (bytes_of_Z [10; 1; 120; 74; 1; 7]))) -> f_num f <> 6) /\
  removeField (bytes_of_Z [10; 1; 120; 74; 1; 7]) 6
  = Done (bytes_of_Z [10; 1; 120; 74; 1; 7]).
Proof.
  assert (H1 : Z.of_nat (length (bytes_of_Z [10; 1; 120; 74; 1; 7])) < 2 ^ 53)
    by (vm_compute; reflexivity).
  assert (H2 : snd (scan (bytes_of_Z [10; 1; 120; 74; 1; 7])) = ScanEnd)
    by (vm_compute; reflexivity).
  assert (H3 : forall f, In f (fst (scan (bytes_of_Z [10; 1; 120; 74; 1; 7]))) ->
                 f_num f <> 6).
  { vm_compute. intros f [<-|[<-|[]]]; simpl; lia. }
  split; [exact H1|]. split; [exact H2|]. split; [exact H3|].
  exact (removeField_absent_identity _ 6 H1 H2 H3).
Defined.

Lemma span_field_end (buffer : list byte) (f : field) :
  span buffer f
  = firstn (Z.to_nat (field_end buffer f - f_start f)) (skipn (Z.to_nat (f_start f)) buffer).
Proof.
  unfold span, subarray, field_end. reflexivity.
Qed.

(** C5. If the scan of [B] ends without error, [removeField(B, n)] is the
    concatenation, in their original order, of the spans of exactly the
    fields whose number is not [n]: every occurrence of field [n] goes, the
    other fields stay byte for byte. If moreover [f] is the only field with
    number [n], the result is [B] with the bytes of [f] cut out: [B] is
    [prefix ++ span f ++ suffix] and the result is [prefix ++ suffix], of
    length [len(B) - len(span f)]. *)
Theorem removeField_removes_all (B : list byte) (n : Z) :
  snd (scan B) = ScanEnd ->
  removeField B n
  = Done (concat (map (span B) (List.filter (kept n) (fst (scan B))))) /\
  (Z.of_nat (length B) < 2 ^ 53 ->
   forall pre f post,
     fst (scan B) = pre ++ f :: post -> f_num f = n ->
     (forall g, In g (pre ++ post) -> f_num g <> n) ->
     let prefix := firstn (Z.to_nat (f_start f)) B in
     let suffix := skipn (Z.to_nat (field_end B f)) B in
     B = prefix ++ span B f ++ suffix /\
     removeField B n = Done (prefix ++ suffix) /\
     length (prefix ++ suffix) = (length B - length (span B f))%nat).
Proof.
  intros Hend. split.
  { rewrite removeField_scan. destruct (scan B) as [fs st].
    simpl in Hend. subst st. reflexivity. }
  intros Hl pre f post Hfs Hn Hothers prefix suffix.
  destruct (scan B) as [fs st] eqn:Hs. simpl in Hend, Hfs. subst st fs.
  unfold scan in Hs.
  destruct (scan_split B _ 0 pre f post ScanEnd Hl ltac:(lia) Hs)
    as (Hst & Hpre & Hgt & fuel' & Hpost).
  rewrite Z.sub_0_r in Hpre. change (skipn (Z.to_nat 0) B) with B in Hpre.
  assert (Hfe : f_start f < field_end B f).
  { unfold field_end. unfold off_gt in Hgt. destruct (f_end f); lia. }
  assert (Hfe2 : field_end B f <= Z.of_nat (length B)).
  { unfold field_end. destruct (f_end f); lia. }
  assert (Hsuf : concat (map (span B) post) = suffix).
  { unfold suffix, field_end.
    destruct (f_end f) as [m|] eqn:Hm.
    - destruct (Z.ltb_spec m (Z.of_nat (length B))) as [Hlt|Hge].
      + simpl in Hgt.
        rewrite Z.min_l by lia. apply (scan_cover B fuel' m); [exact Hl|lia|exact Hpost].
      + pose proof (scan_loop_past B fuel' (JFin m) Hge) as Hp.
        rewrite Hpost in Hp. simpl in Hp. subst post.
        rewrite Z.min_r by lia. simpl. symmetry. apply drop_ge. lia.
    - pose proof (scan_loop_past B fuel' JInf I) as Hp.
      rewrite Hpost in Hp. simpl in Hp. subst post.
      simpl. symmetry. apply drop_ge. lia. }
  assert (Hkeep : forall l, (forall g, In g l -> f_num g <> n) ->
                  List.filter (kept n) l = l).
  { intros l Hl'. apply forallb_filter_id, forallb_forall. intros g Hg.
    unfold kept. apply negb_true_iff, Z.eqb_neq. auto. }
  assert (Hout : removeField B n = Done (prefix ++ suffix)).
  { rewrite removeField_scan. unfold scan. rewrite Hs. f_equal.
    rewrite List.filter_app. cbn [List.filter]. unfold kept at 2. rewrite Hn, Z.eqb_refl.
    cbn [negb]. rewrite !Hkeep by (intros g Hg; apply Hothers, in_or_app; auto).
    rewrite map_app, concat_app, Hpre, Hsuf. reflexivity. }
  split; [|split; [exact Hout|]].
  - unfold prefix, suffix. rewrite span_field_end.
    replace (Z.to_nat (field_end B f)) with
      (Z.to_nat (f_start f) + Z.to_nat (field_end B f - f_start f))%nat by lia.
    rewrite <- drop_drop, take_drop, take_drop. reflexivity.
  - unfold prefix, suffix. rewrite span_field_end, length_app, !length_take,
      !length_drop. lia.
Qed.

Lemma removeField_removes_all_witness :
  snd (scan (bytes_of_Z [10; 1; 120; 50; 2; 1; 2; 74; 1; 7; 50; 0])) = ScanEnd /\
  removeField (bytes_of_Z [10; 1; 120; 50; 2; 1; 2; 74; 1; 7; 50; 0]) 6
  = Done (bytes_of_Z [10; 1; 120; 74; 1; 7]).
Proof.
  assert (H : snd (scan (bytes_of_Z [10; 1; 120; 50; 2; 1; 2; 74; 1; 7; 50; 0]))
              = ScanEnd) by (vm_compute; reflexivity).
  split; [exact H|].
  rewrite (proj1 (removeField_removes_all _ 6 H)). vm_compute. reflexivity.
Defined.

(* ------------------------------------------------------------------ *)
(** ** Buffers made of length-delimited fields *)

Lemma ToInt32_Z_small (x : Z) : 0 <= x < 2 ^ 31 -> ToInt32_Z x = x.
Proof.
  intros Hx. unfold ToInt32_Z. rewrite Z.mod_small by lia.
  destruct (Z.ltb_spec x (2 ^ 31)); lia.
Qed.

(** The tag [encodeTag] writes, and how the loop reads it back. *)
Lemma encodeTag_value (m w : Z) : 0 <= m < 2 ^ 28 -> 0 <= w < 8 ->
  encodeTag m w = encodeVarint (m * 8 + w) /\
  wire_type_of (JFin (m * 8 + w)) = w /\
  field_num_of (JFin (m * 8 + w)) = m.
Proof.
  intros Hm Hw.
  assert (Ht : Z.lor (Z.shiftl m 3) w = m * 8 + w).
  { set (t := Z.lor (Z.shiftl m 3) w).
    assert (Hlo : t mod 8 = w).
    { change 8 with (2 ^ 3). rewrite <- Z.land_ones by lia. unfold t.
      rewrite Z.land_lor_distr_l, Z.shiftl_mul_pow2 by lia.
      rewrite !Z.land_ones by lia.
      rewrite Z.mod_mul by lia. rewrite Z.mod_small by lia. apply Z.lor_0_l. }
    assert (Hhi : t / 8 = m).
    { change 8 with (2 ^ 3). rewrite <- Z.shiftr_div_pow2 by lia. unfold t.
      rewrite Z.shiftr_lor, Z.shiftr_shiftl_l by lia. rewrite Z.sub_diag, Z.shiftl_0_r.
      rewrite (Z.shiftr_div_pow2 w 3), Z.div_small by lia. apply Z.lor_0_r. }
    rewrite (Z.div_mod t 8) by lia. lia. }
  assert (Hs : Z.shiftl m 3 = m * 8) by (rewrite Z.shiftl_mul_pow2; lia).
  unfold encodeTag, wire_type_of, field_num_of, ToInt32.
  rewrite (ToInt32_Z_small m), (ToInt32_Z_small w) by lia.
  rewrite (ToInt32_Z_small (Z.shiftl m 3)) by (rewrite Hs; lia). rewrite Ht.
  rewrite ToInt32_Z_small by lia. split; [reflexivity|].
  split.
  - change 7 with (Z.ones 3). rewrite Z.land_ones by lia.
    rewrite Z.add_comm, Z.mod_add by lia. apply Z.mod_small. lia.
  - rewrite Z.shiftr_div_pow2 by lia. change (2 ^ 3) with 8.
    rewrite Z.add_comm, Z.div_add by lia. rewrite Z.div_small by lia. lia.
Qed.

Lemma encodeVarint_nonempty (v : Z) : (1 <= length (encodeVarint v))%nat.
Proof.
  unfold encodeVarint, bytes_of_Z. rewrite length_map. apply encode_loop_nonempty.
Qed.

Lemma Number_of_bigint_small (z : Z) : z < 2 ^ 53 -> Number_of_bigint z = JFin z.
Proof.
  intros Hz. unfold Number_of_bigint. destruct (Z.ltb_spec z (2 ^ 53)); [reflexivity|lia].
Qed.

Lemma ld_field_length (m : Z) (p : list byte) : 0 <= m < 2 ^ 28 ->
  length (ld_field m p)
  = (length (encodeVarint (m * 8 + 2)) +
     length (encodeVarint (Z.of_nat (length p))) + length p)%nat.
Proof.
  intros Hm. unfold ld_field.
  rewrite (proj1 (encodeTag_value m 2 Hm ltac:(lia))), !length_app. lia.
Qed.

(** Scanning a buffer made of length-delimited fields [ld_field m p], from
    the start of one of them, meets exactly these fields, each with number
    [m], wire type 2 and span [ld_field m p]. *)
Lemma scan_loop_ld (B pre : list byte) (L : list (Z * list byte)) (fuel : nat) :
  B = pre ++ ld_fields L ->
  Forall (fun mp => 0 <= fst mp < 2 ^ 28) L ->
  Z.of_nat (length B) < 2 ^ 53 ->
  (length L < fuel)%nat ->
  snd (scan_loop B fuel (JFin (Z.of_nat (length pre)))) = ScanEnd /\
  map (fun f => (f_num f, f_wt f, span B f))
      (fst (scan_loop B fuel (JFin (Z.of_nat (length pre)))))
  = map (fun mp => (fst mp, 2, ld_field (fst mp) (snd mp))) L.
Proof.
  intros HB HL Hl. revert pre fuel HB.
  induction L as [|[m p] L IH]; intros pre fuel HB Hf;
    (destruct fuel as [|fuel]; [simpl in Hf; lia|]); cbn [scan_loop].
  - unfold ld_fields in HB. simpl in HB. rewrite app_nil_r in HB. subst B.
    destruct (Z.ltb_spec (Z.of_nat (length pre)) (Z.of_nat (length pre))); [lia|].
    split; reflexivity.
  - apply Forall_cons in HL as [Hm HL']. simpl in Hm. simpl in Hf.
    set (t := m * 8 + 2).
    set (lp := Z.of_nat (length p)).
    set (rest := ld_fields L).
    destruct (encodeTag_value m 2 Hm ltac:(lia)) as (Etag & Ewt & Enum).
    assert (HB1 : B = pre ++ encodeVarint t ++ (encodeVarint lp ++ p ++ rest)).
    { rewrite HB. unfold ld_fields. simpl. unfold ld_field. rewrite Etag.
      rewrite <- !app_assoc. reflexivity. }
    assert (HlenB : length B = (length pre + length (encodeVarint t) +
                     length (encodeVarint lp) + length p + length rest)%nat).
    { rewrite HB1, !length_app. lia. }
    pose proof (encodeVarint_nonempty t) as Hne.
    set (d := Z.of_nat (length pre) + Z.of_nat (length (encodeVarint t))).
    set (d' := d + Z.of_nat (length (encodeVarint lp))).
    assert (R1 : readVarint B (Z.of_nat (length pre)) = (JFin t, d)).
    { rewrite HB1, readVarint_encode by lia.
      rewrite Number_of_bigint_small by lia. reflexivity. }
    assert (R2 : readVarint B d = (JFin lp, d')).
    { assert (HB2 : B = (pre ++ encodeVarint t) ++ encodeVarint lp ++ (p ++ rest))
        by (rewrite HB1, <- app_assoc; reflexivity).
      assert (Hd : d = Z.of_nat (length (pre ++ encodeVarint t)))
        by (unfold d; rewrite length_app; lia).
      rewrite HB2, Hd, readVarint_encode by lia.
      rewrite Number_of_bigint_small by lia. unfold d', d.
      rewrite length_app. f_equal. lia. }
    destruct (Z.ltb_spec (Z.of_nat (length pre)) (Z.of_nat (length B))); [|lia].
    rewrite R1. cbv zeta. fold t in Ewt, Enum. rewrite Ewt, Enum.
    cbn [skipField]. rewrite R2. cbn [js_add].
    rewrite Number_of_bigint_small by lia.
    assert (Hpre' : B = (pre ++ ld_field m p) ++ ld_fields L).
    { rewrite HB. unfold ld_fields. simpl. rewrite app_assoc. reflexivity. }
    assert (He : d' + lp = Z.of_nat (length (pre ++ ld_field m p))).
    { rewrite length_app, ld_field_length by exact Hm. fold t lp. unfold d', d. lia. }
    rewrite He.
    destruct (IH HL' (pre ++ ld_field m p) fuel Hpre' ltac:(lia)) as [IH1 IH2].
    destruct (scan_loop B fuel (JFin (Z.of_nat (length (pre ++ ld_field m p)))))
      as [fs st].
    simpl in IH1, IH2 |- *. split; [exact IH1|]. rewrite IH2. f_equal.
    f_equal. unfold span, subarray. cbn [f_start f_end].
    rewrite Z.min_l by (rewrite Hpre', !length_app; lia).
    rewrite Hpre', <- app_assoc, Nat2Z.id, drop_app_length.
    apply take_app_length'. rewrite length_app. lia.
Qed.

Lemma ld_fields_length (L : list (Z * list byte)) :
  (length L <= length (ld_fields L))%nat.
Proof.
  induction L as [|[m p] L IH]; simpl; [lia|].
  assert (H1 : (1 <= length (ld_field m p))%nat).
  { unfold ld_field, encodeTag. rewrite !length_app.
    pose proof (encodeVarint_nonempty
      (Z.lor (ToInt32_Z (Z.shiftl (ToInt32_Z m) 3)) (ToInt32_Z 2))). lia. }
  unfold ld_fields in *. cbn [map concat]. rewrite length_app. lia.
Qed.

Lemma filter_spans (B : list byte) (n : Z) (fs : list field)
    (L : list (Z * list byte)) :
  map (fun f => (f_num f, f_wt f, span B f)) fs
  = map (fun mp => (fst mp, 2, ld_field (fst mp) (snd mp))) L ->
  concat (map (span B) (List.filter (kept n) fs))
  = ld_fields (List.filter (ld_kept n) L).
Proof.
  revert L. induction fs as [|f fs IH]; intros [|[m p] L] H; try discriminate.
  - reflexivity.
  - simpl in H. injection H as Hn _ Hs HL.
    cbn [List.filter]. unfold kept at 1, ld_kept at 1. cbn [fst]. rewrite Hn.
    destruct (negb (m =? n)).
    + cbn [map concat]. rewrite (IH L HL), Hs. reflexivity.
    + apply IH. exact HL.
Qed.

(** [removeField] on a buffer of length-delimited fields drops exactly the
    fields with the given number. *)
Lemma removeField_ld (L : list (Z * list byte)) (n : Z) :
  Forall (fun mp => 0 <= fst mp < 2 ^ 28) L ->
  Z.of_nat (length (ld_fields L)) < 2 ^ 53 ->
  removeField (ld_fields L) n = Done (ld_fields (List.filter (ld_kept n) L)).
Proof.
  intros HL Hl. rewrite removeField_scan. unfold scan.
  pose proof (ld_fields_length L) as Hlen.
  destruct (scan_loop_ld (ld_fields L) [] L (S (length (ld_fields L)))
              eq_refl HL Hl ltac:(lia)) as [H1 H2].
  change (Z.of_nat (length (@nil byte))) with 0 in H1, H2.
  destruct (scan_loop _ _ _) as [fs st]. simpl in H1, H2. subst st.
  f_equal. apply filter_spans. exact H2.
Qed.

Lemma scan_ld (L : list (Z * list byte)) :
  Forall (fun mp => 0 <= fst mp < 2 ^ 28) L ->
  Z.of_nat (length (ld_fields L)) < 2 ^ 53 ->
  snd (scan (ld_fields L)) = ScanEnd /\
  map (fun f => (f_num f, f_wt f, span (ld_fields L) f)) (fst (scan (ld_fields L)))
  = map (fun mp => (fst mp, 2, ld_field (fst mp) (snd mp))) L.
Proof.
  intros HL Hl. unfold scan.
  pose proof (ld_fields_length L) as Hlen.
  exact (scan_loop_ld (ld_fields L) [] L (S (length (ld_fields L)))
           eq_refl HL Hl ltac:(lia)).
Qed.

(* ------------------------------------------------------------------ *)
(** ** The credential field *)

(** C7. [createOAuthField("A", "R", 1000)] is one well-formed
    length-delimited field: scanned from the start it is a single field
    numbered 6 with wire type 2, whose length varint is followed by exactly
    that many bytes up to the end. Re-scanned, its payload holds exactly
    four fields numbered 1, 2, 3, 4 in that order, all length-delimited;
    the payload of field 2 is the UTF-8 bytes of "Bearer"; the payload of
    field 4 is a message whose only field is field 1, a varint equal to
    1000. *)
Theorem createOAuthField_rescan :
  let out := createOAuthField (Some (js_of_string "A")) (js_of_string "R") 1000 in
  match scan out with
  | ([f], ScanEnd) =>
      f_num f = 6 /\ f_wt f = 2 /\ f_start f = 0 /\
      f_end f = JFin (Z.of_nat (length out)) /\
      (let '(len, start) := readVarint out (f_data f) in
       len = JFin (Z.of_nat (length out) - start)) /\
      (let p := ld_payload out f in
       match scan p with
       | ([g1; g2; g3; g4], ScanEnd) =>
           map f_num [g1; g2; g3; g4] = [1; 2; 3; 4] /\
           map f_wt [g1; g2; g3; g4] = [2; 2; 2; 2] /\
           ld_payload p g2 = utf8_encode (js_of_string "Bearer") /\
           (let q := ld_payload p g4 in
            match scan q with
            | ([h], ScanEnd) => f_num h = 1 /\ f_wt h = 0 /\ varint_value q h = JFin 1000
            | _ => False
            end)
       | _ => False
       end)
  | _ => False
  end.
Proof. vm_compute. repeat split. Qed.

Lemma createOAuthField_ld (a : option jsstr) (r : jsstr) (e : Z) :
  createOAuthField a r e =
  ld_field 6
    (concat
       ((match a with
         | Some s => if js_truthy s then [ld_field 1 (utf8_encode s)] else []
         | None => []
         end) ++
        [ld_field 2 (utf8_encode (js_of_string "Bearer"))] ++
        (if js_truthy r then [ld_field 3 (utf8_encode r)] else []) ++
        [ld_field 4 (encodeTag 1 0 ++ encodeVarint e)])).
Proof.
  unfold createOAuthField, ld_field. cbv zeta.
  destruct a as [s|]; [destruct (js_truthy s)|]; destruct (js_truthy r);
    cbn [concat app]; rewrite ?app_nil_r, <- ?app_assoc; reflexivity.
Qed.

(** C9. An empty [refresh_token] leaves no trace of sub-field 3 (no tag, no
    length, no payload): with the same other inputs, the field built with a
    non-empty [refresh_token] differs only by the bytes of sub-field 3,
    inserted between the same bytes [X] and [Y]. An empty
    [access_token] gives the same bytes as an absent one. *)
Theorem createOAuthField_empty_strings (a : option jsstr) (r : jsstr) (e : Z) :
  createOAuthField (Some []) r e = createOAuthField None r e /\
  exists X Y,
    createOAuthField a [] e = ld_field 6 (X ++ Y) /\
    createOAuthField a r e =
    ld_field 6 (X ++ (if js_truthy r then ld_field 3 (utf8_encode r) else []) ++ Y).
Proof.
  split; [reflexivity|].
  exists (concat ((match a with
                   | Some s => if js_truthy s then [ld_field 1 (utf8_encode s)] else []
                   | None => []
                   end) ++ [ld_field 2 (utf8_encode (js_of_string "Bearer"))])).
  exists (ld_field 4 (encodeTag 1 0 ++ encodeVarint e)).
  rewrite !createOAuthField_ld. cbn [js_truthy].
  destruct a as [s|]; [destruct (js_truthy s)|]; destruct (js_truthy r);
    split; f_equal; cbn [concat app]; rewrite ?app_nil_r, <- ?app_assoc;
    reflexivity.
Qed.

(* ------------------------------------------------------------------ *)
(** ** Reading the stored value back *)

Lemma list_ascii_of_string_app (s t : string) :
  list_ascii_of_string (s +:+ t) = list_ascii_of_string s ++ list_ascii_of_string t.
Proof.
  induction s as [|c s IH]; [reflexivity|].
  change (String c s +:+ t) with (String c (s +:+ t)). simpl. rewrite IH. reflexivity.
Qed.

Lemma trim_start_string_of_list (l : list ascii) (c : ascii) :
  is_ws c = false ->
  trim_start (string_of_list_ascii (c :: l)) = string_of_list_ascii (c :: l).
Proof. intros Hc. simpl. rewrite Hc. reflexivity. Qed.

(** A stored text with no white space comes back as it is: the CLI's
    trailing newline is removed by [trim]. *)
Lemma readDbValue_plain (db : store) (key s : string) :
  db !! key = Some s -> s <> EmptyString ->
  Forall (fun c => is_ws c = false) (list_ascii_of_string s) ->
  readDbValue db key = Some s.
Proof.
  intros Hdb Hne Hws. unfold readDbValue. rewrite Hdb.
  assert (Ht : trim (s +:+ newline) = s).
  { destruct s as [|c s']; [congruence|].
    apply Forall_cons in Hws as Hws'. destruct Hws' as [Hc _].
    unfold trim.
    change (String c s' +:+ newline) with (String c (s' +:+ newline)).
    cbn [trim_start]. rewrite Hc.
    change (String c (s' +:+ newline)) with (String c s' +:+ newline).
    rewrite list_ascii_of_string_app.
    change (list_ascii_of_string newline) with [ascii_of_nat 10].
    remember (list_ascii_of_string (String c s')) as l eqn:Hl.
    rewrite rev_app_distr. cbn [rev app string_of_list_ascii trim_start].
    replace (is_ws (ascii_of_nat 10)) with true by reflexivity.
    destruct (rev l) as [|d r] eqn:Hr.
    { apply (f_equal (@rev ascii)) in Hr. rewrite rev_involutive in Hr.
      subst l. discriminate. }
    assert (Hd : is_ws d = false).
    { assert (Hin : In d l) by (apply in_rev; rewrite Hr; left; reflexivity).
      rewrite List.Forall_forall in Hws. apply Hws. subst l. exact Hin. }
    rewrite trim_start_string_of_list by exact Hd.
    rewrite list_ascii_of_string_of_list_ascii, <- Hr, rev_involutive, Hl.
    apply string_of_list_ascii_of_string. }
  rewrite Ht. destruct s; [congruence|reflexivity].
Qed.

(* ------------------------------------------------------------------ *)
(** ** The patch of the stored state *)

(** C8. Let the stored value of [jetskiStateSync.agentManagerInitState] be
    base64 text decoding to the top-level fields [1: "x"], [6: old],
    [9: "keep-me"]. Patching it succeeds. The stored value becomes the
    encoding of the fields [1: "x"], [9: "keep-me"], then the new field 6:
    the bytes of fields 1 and 9 are unchanged and in their order, and the
    freshly built field 6 comes after them. [antigravityOnboarding] is set
    to "true". When the new buffer is below the maximal Buffer length, its
    scan finds exactly these three fields. *)
Theorem injectTokenAndReload_keeps_other_fields
    (dec : string -> list byte) (enc : list byte -> string) (path : string)
    (token : TokenData) (db : store) (s : string) (old : list byte) :
  let x := utf8_encode (js_of_string "x") in
  let keep := utf8_encode (js_of_string "keep-me") in
  db !! KEY_STATE = Some s ->
  s <> EmptyString ->
  Forall (fun c => is_ws c = false) (list_ascii_of_string s) ->
  dec s = ld_fields [(1, x); (6, old); (9, keep)] ->
  Z.of_nat (length (ld_fields [(1, x); (6, old); (9, keep)])) < 2 ^ 53 ->
  exists p,
    createOAuthField (Some (access_token token)) (refresh_token token)
      (expires_in token) = ld_field 6 p /\
    injectTokenAndReload dec enc (Some path) token db =
    (Done tt,
     <[KEY_ONBOARDING := "true"]>
       (<[KEY_STATE := enc (ld_fields [(1, x); (9, keep); (6, p)])]> db)) /\
    (Z.of_nat (length (ld_fields [(1, x); (9, keep); (6, p)])) < 2 ^ 53 ->
     snd (scan (ld_fields [(1, x); (9, keep); (6, p)])) = ScanEnd /\
     map (fun f => (f_num f, f_wt f, span (ld_fields [(1, x); (9, keep); (6, p)]) f))
       (fst (scan (ld_fields [(1, x); (9, keep); (6, p)])))
     = [(1, 2, ld_field 1 x); (9, 2, ld_field 9 keep); (6, 2, ld_field 6 p)]).
Proof.
  intros x keep Hdb Hne Hws Hdec Hlen.
  rewrite createOAuthField_ld.
  eexists. split; [reflexivity|]. split.
  - unfold injectTokenAndReload.
    rewrite (readDbValue_plain db KEY_STATE s Hdb Hne Hws), Hdec.
    rewrite removeField_ld.
    + cbn [List.filter ld_kept fst Z.eqb Pos.eqb negb].
      unfold writeDbValue. rewrite createOAuthField_ld. do 3 f_equal.
      unfold ld_fields. cbn [map concat]. rewrite !app_nil_r, <- !app_assoc.
      reflexivity.
    + repeat constructor; simpl; lia.
    + exact Hlen.
  - intros Hl. apply scan_ld; [repeat constructor; simpl; lia|exact Hl].
Qed.

Lemma injectTokenAndReload_keeps_other_fields_witness :
  let B := ld_fields [(1, utf8_encode (js_of_string "x")); (6, []);
                      (9, utf8_encode (js_of_string "keep-me"))] in
  let db : store := <["antigravityOnboarding" := "false"]>
                      (<[KEY_STATE := "CgF4MgBKB2tlZXAtbWU="]> ∅) in
  (db !! KEY_STATE = Some "CgF4MgBKB2tlZXAtbWU=" /\
   "CgF4MgBKB2tlZXAtbWU=" <> EmptyString /\
   Forall (fun c => is_ws c = false) (list_ascii_of_string "CgF4MgBKB2tlZXAtbWU=") /\
   (fun _ : string => B) "CgF4MgBKB2tlZXAtbWU=" = B /\
   Z.of_nat (length B) < 2 ^ 53) /\
  exists p,
    createOAuthField (Some (js_of_string "ya29")) (js_of_string "1//r") 3600
      = ld_field 6 p /\
    injectTokenAndReload (fun _ => B) (fun _ => "out") (Some "state.vscdb")
      (mkToken (js_of_string "ya29") (js_of_string "1//r") 3600) db =
    (Done tt,
     <[KEY_ONBOARDING := "true"]>
       (<[KEY_STATE := "out"]> db)) /\
    (Z.of_nat (length (ld_fields [(1, utf8_encode (js_of_string "x"));
                                 (9, utf8_encode (js_of_string "keep-me")); (6, p)]))
       < 2 ^ 53 ->
     snd (scan (ld_fields [(1, utf8_encode (js_of_string "x"));
                           (9, utf8_encode (js_of_string "keep-me")); (6, p)])) = ScanEnd /\
     map (fun f => (f_num f, f_wt f,
                    span (ld_fields [(1, utf8_encode (js_of_string "x"));
                                     (9, utf8_encode (js_of_string "keep-me")); (6, p)]) f))
       (fst (scan (ld_fields [(1, utf8_encode (js_of_string "x"));
                              (9, utf8_encode (js_of_string "keep-me")); (6, p)])))
     = [(1, 2, ld_field 1 (utf8_encode (js_of_string "x")));
        (9, 2, ld_field 9 (utf8_encode (js_of_string "keep-me"))); (6, 2, ld_field 6 p)]).
Proof.
  cbv zeta.
  assert (H1 : (<["antigravityOnboarding" := "false"]>
                (<[KEY_STATE := "CgF4MgBKB2tlZXAtbWU="]> (∅ : store))) !! KEY_STATE
               = Some "CgF4MgBKB2tlZXAtbWU=") by reflexivity.
  assert (H2 : "CgF4MgBKB2tlZXAtbWU=" <> EmptyString) by discriminate.
  assert (H3 : Forall (fun c => is_ws c = false)
                 (list_ascii_of_string "CgF4MgBKB2tlZXAtbWU="))
    by (repeat constructor).
  assert (H5 : Z.of_nat (length (ld_fields [(1, utf8_encode (js_of_string "x")); (6, []);
                      (9, utf8_encode (js_of_string "keep-me"))])) < 2 ^ 53)
    by (vm_compute; reflexivity).
  split; [repeat split; assumption|].
  exact (injectTokenAndReload_keeps_other_fields _ (fun _ => "out") "state.vscdb"
           (mkToken (js_of_string "ya29") (js_of_string "1//r") 3600) _
           "CgF4MgBKB2tlZXAtbWU=" [] H1 H2 H3 eq_refl H5).
Defined.

(* ------------------------------------------------------------------ *)
(** ** What the decoder does with truncated input *)

Lemma read_loop_unterminated (bs : list byte) (result shift : Z) :
  Forall (fun b => Z.land (bval b) 128 <> 0) bs ->
  snd (read_loop bs result shift) = length bs.
Proof.
  revert result shift.
  induction bs as [|b rest IH]; intros result shift Hc; [reflexivity|].
  apply Forall_cons in Hc as [Hb Hrest]. cbn [read_loop].
  destruct (Z.eqb_spec (Z.land (bval b) 128) 0) as [E|_]; [contradiction|].
  specialize (IH (Z.lor result (Z.shiftl (Z.land (bval b) 127) shift)) (shift + 7) Hrest).
  destruct (read_loop rest _ _) as [r k]. simpl in *. congruence.
Qed.

(** C2 (as the code has it). [readVarint] has no failure: on a buffer whose
    bytes from [offset] to the end all carry the continuation bit, it
    returns a value (the groups read so far) with [newOffset] equal to the
    buffer length. *)
Theorem readVarint_unterminated (buffer : list byte) (offset : Z) :
  0 <= offset <= Z.of_nat (length buffer) ->
  Forall (fun b => Z.land (bval b) 128 <> 0) (skipn (Z.to_nat offset) buffer) ->
  snd (readVarint buffer offset) = Z.of_nat (length buffer).
Proof.
  intros Ho Hc. unfold readVarint.
  pose proof (read_loop_unterminated _ 0 0 Hc) as H.
  destruct (read_loop _ 0 0) as [r k]. simpl in *. subst k.
  rewrite length_skipn. lia.
Qed.

Lemma readVarint_unterminated_witness :
  (0 <= 1 <= Z.of_nat (length (bytes_of_Z [8; 128; 128])) /\
   Forall (fun b => Z.land (bval b) 128 <> 0) (skipn (Z.to_nat 1) (bytes_of_Z [8; 128; 128]))) /\
  snd (readVarint (bytes_of_Z [8; 128; 128]) 1) = Z.of_nat (length (bytes_of_Z [8; 128; 128])).
Proof.
  assert (H1 : 0 <= 1 <= Z.of_nat (length (bytes_of_Z [8; 128; 128]))) by (simpl; lia).
  assert (H2 : Forall (fun b => Z.land (bval b) 128 <> 0)
                 (skipn (Z.to_nat 1) (bytes_of_Z [8; 128; 128])))
    by (repeat constructor; discriminate).
  split; [split; assumption|].
  exact (readVarint_unterminated (bytes_of_Z [8; 128; 128]) 1 H1 H2).
Defined.

(** Against C2: a varint cut short by the end of the buffer is read as a
    value; [removeField] goes on and returns a buffer. *)
Lemma readVarint_unterminated_counterexample :
  readVarint (bytes_of_Z [128; 128]) 0 = (JFin 0, 2) /\
  removeField (bytes_of_Z [8; 128]) 1 = Done [] /\
  removeField (bytes_of_Z [8; 128]) 2 = Done (bytes_of_Z [8; 128]).
Proof. vm_compute. repeat split. Qed.

(* ------------------------------------------------------------------ *)
(** ** The errors of the scan *)

Lemma scan_loop_errors (buffer : list byte) (fuel : nat) (offset : jsnum)
    (fs : list field) (st : scan_stop) :
  scan_loop buffer fuel offset = (fs, st) ->
  (forall f, In f fs -> supported_wt (f_wt f)) /\
  (forall s num wt e, st = ScanFail s num wt e ->
     e = UnknownWireType wt /\ ~ supported_wt wt).
Proof.
  revert offset fs st.
  induction fuel as [|fuel IH]; intros offset fs st Hs; cbn [scan_loop] in Hs.
  { inversion Hs; subst. split; [intros f []|discriminate]. }
  destruct offset as [o|].
  2: { inversion Hs; subst. split; [intros f []|discriminate]. }
  destruct (o <? Z.of_nat (length buffer)).
  2: { inversion Hs; subst. split; [intros f []|discriminate]. }
  destruct (readVarint buffer o) as [tag d].
  destruct (skipField_cases buffer d (wire_type_of tag))
    as [[Hw E]|[[Hw E]|[[Hw E]|[[Hw E]|(H0 & H1 & H2 & H5 & E)]]]];
    rewrite E in Hs;
    try (destruct (scan_loop buffer fuel _) as [fs' st'] eqn:Hs';
         inversion Hs; subst; clear Hs;
         destruct (IH _ _ _ Hs') as [IHf IHs];
         split; [intros f [<-|Hf]; [simpl; unfold supported_wt; lia|auto]|exact IHs]).
  inversion Hs; subst. split; [intros f []|].
  intros s num wt e Hst. inversion Hst; subst.
  split; [reflexivity|unfold supported_wt; lia].
Qed.

(** C3 (as the code has it). [skipField] reads no bound: for a supported
    wire type it always returns an offset, the one of its arithmetic, also
    past the end of the buffer. The only error [removeField] raises is an
    unknown wire type. *)
Theorem skipField_no_bound_check (buffer : list byte) (d : Z) :
  skipField buffer d 0 = inr (JFin (snd (readVarint buffer d))) /\
  skipField buffer d 1 = inr (Number_of_bigint (d + 8)) /\
  skipField buffer d 2 =
    inr (js_add (JFin (snd (readVarint buffer d))) (fst (readVarint buffer d))) /\
  skipField buffer d 5 = inr (Number_of_bigint (d + 4)) /\
  (forall n e, removeField buffer n = Throw e ->
     exists w, e = UnknownWireType w /\ ~ supported_wt w).
Proof.
  split; [reflexivity|]. split; [reflexivity|].
  split; [unfold skipField; destruct (readVarint buffer d); reflexivity|].
  split; [reflexivity|].
  intros n e H. rewrite removeField_scan in H.
  destruct (scan buffer) as [fs st] eqn:Hs.
  destruct (scan_loop_errors _ _ _ _ _ Hs) as [_ Hst].
  destruct st as [|s num wt e'|]; try discriminate.
  inversion H; subst. exists wt. apply (Hst s num wt e eq_refl).
Qed.

(** Against C3: field 1 with wire type 1 (tag 9) and no payload byte after
    its tag. [skipField] returns offset 9 in a buffer of length 1, and
    [removeField] returns a buffer instead of failing. *)
Lemma skipField_truncated_counterexample :
  skipField (bytes_of_Z [9]) 1 1 = inr (JFin 9) /\
  Z.of_nat (length (bytes_of_Z [9])) = 1 /\
  removeField (bytes_of_Z [9]) 2 = Done (bytes_of_Z [9]) /\
  removeField (bytes_of_Z [9]) 1 = Done [].
Proof. vm_compute. repeat split. Qed.

(** C4. A stored buffer in which the scan meets a tag of wire type 3 or 4
    (start-group, end-group) makes the patch fail with the unknown
    wire type error for that tag, and the store is left as it was: neither
    key is written. *)
Theorem injectTokenAndReload_group_fails
    (dec : string -> list byte) (enc : list byte -> string) (path : string)
    (token : TokenData) (db : store) (t : string) (num w : Z) :
  readDbValue db KEY_STATE = Some t ->
  In (num, w) (scanned_tags (dec t)) ->
  w = 3 \/ w = 4 ->
  injectTokenAndReload dec enc (Some path) token db =
  (Throw (UnknownWireType w), db).
Proof.
  intros Hr Hin Hw. unfold injectTokenAndReload. rewrite Hr.
  rewrite removeField_scan.
  unfold scanned_tags in Hin.
  destruct (scan (dec t)) as [fs st] eqn:Hs.
  destruct (scan_loop_errors _ _ _ _ _ Hs) as [Hfs Hst].
  apply in_app_or in Hin as [Hin|Hin].
  - apply in_map_iff in Hin as [f [Ef Hf]]. inversion Ef; subst.
    apply Hfs in Hf. unfold supported_wt in Hf. lia.
  - destruct st as [|s num' wt e|]; try contradiction.
    destruct Hin as [Ew|[]]. injection Ew as E1 E2. subst num' wt.
    destruct (Hst s num w e eq_refl) as [-> _]. reflexivity.
Qed.

Lemma injectTokenAndReload_group_fails_witness :
  let db : store := <[KEY_STATE := "CgF4Cw=="]> ∅ in
  let dec := fun _ : string => bytes_of_Z [10; 1; 120; 11] in
  (readDbValue db KEY_STATE = Some "CgF4Cw==" /\
   In (1, 3) (scanned_tags (dec "CgF4Cw==")) /\ (3 = 3 \/ 3 = 4)) /\
  injectTokenAndReload dec (fun _ => "out") (Some "state.vscdb")
    (mkToken (js_of_string "ya29") (js_of_string "1//r") 3600) db =
  (Throw (UnknownWireType 3), db).
Proof.
  cbv zeta.
  assert (H1 : readDbValue (<[KEY_STATE := "CgF4Cw=="]> (∅ : store)) KEY_STATE
               = Some "CgF4Cw==") by reflexivity.
  assert (H2 : In (1, 3) (scanned_tags (bytes_of_Z [10; 1; 120; 11])))
    by (vm_compute; right; left; reflexivity).
  assert (H3 : 3 = 3 \/ 3 = 4) by (left; reflexivity).
  split; [split; [exact H1|split; [exact H2|exact H3]]|].
  exact (injectTokenAndReload_group_fails (fun _ => bytes_of_Z [10; 1; 120; 11])
           (fun _ => "out") "state.vscdb"
           (mkToken (js_of_string "ya29") (js_of_string "1//r") 3600)
           _ "CgF4Cw==" 1 3 H1 H2 H3).
Defined.

(* ------------------------------------------------------------------ *)
(** ** Messages of varint and length-delimited fields *)

Lemma subarray_mid (B pre mid post : list byte) :
  B = pre ++ mid ++ post ->
  subarray B (Z.of_nat (length pre)) (JFin (Z.of_nat (length pre) + Z.of_nat (length mid)))
  = mid.
Proof.
  intros ->. unfold subarray.
  rewrite Z.min_l by (rewrite !length_app; lia).
  replace (Z.of_nat (length pre) + Z.of_nat (length mid) - Z.of_nat (length pre))
    with (Z.of_nat (length mid)) by lia.
  rewrite !Nat2Z.id, drop_app_length. apply take_app_length'. reflexivity.
Qed.

Lemma msg_bytes_cons (pf : pfield) (L : list pfield) :
  msg_bytes (pf :: L) = pf_bytes pf ++ msg_bytes L.
Proof. reflexivity. Qed.

Lemma msg_bytes_app (L1 L2 : list pfield) :
  msg_bytes (L1 ++ L2) = msg_bytes L1 ++ msg_bytes L2.
Proof. unfold msg_bytes. rewrite map_app, concat_app. reflexivity. Qed.

Lemma pf_bytes_length (pf : pfield) : (1 <= length (pf_bytes pf))%nat.
Proof.
  destruct pf as [m p|m v]; cbn [pf_bytes]; [unfold ld_field|];
    rewrite !length_app; unfold encodeTag;
    [pose proof (encodeVarint_nonempty
       (Z.lor (ToInt32_Z (Z.shiftl (ToInt32_Z m) 3)) (ToInt32_Z 2)))
    |pose proof (encodeVarint_nonempty
       (Z.lor (ToInt32_Z (Z.shiftl (ToInt32_Z m) 3)) (ToInt32_Z 0)))]; lia.
Qed.

Lemma msg_bytes_length (L : list pfield) : (length L <= length (msg_bytes L))%nat.
Proof.
  induction L as [|pf L IH]; [simpl; lia|].
  rewrite msg_bytes_cons, length_app. pose proof (pf_bytes_length pf). simpl. lia.
Qed.

(** Scanning a message from the start of one of its fields meets exactly
    its fields: each one reads back as itself, and spans its own bytes. *)
Lemma scan_loop_msg (B pre : list byte) (L : list pfield) (fuel : nat) :
  B = pre ++ msg_bytes L ->
  Forall pf_ok L ->
  Z.of_nat (length B) < 2 ^ 53 ->
  (length L < fuel)%nat ->
  snd (scan_loop B fuel (JFin (Z.of_nat (length pre)))) = ScanEnd /\
  map (fun f => (decode_field B f, span B f))
      (fst (scan_loop B fuel (JFin (Z.of_nat (length pre)))))
  = map (fun pf => (pf, pf_bytes pf)) L.
Proof.
  intros HB HL Hl. revert pre fuel HB.
  induction L as [|pf L IH]; intros pre fuel HB Hf;
    (destruct fuel as [|fuel]; [simpl in Hf; lia|]); cbn [scan_loop].
  - unfold msg_bytes in HB. simpl in HB. rewrite app_nil_r in HB. subst B.
    destruct (Z.ltb_spec (Z.of_nat (length pre)) (Z.of_nat (length pre))); [lia|].
    split; reflexivity.
  - apply Forall_cons in HL as [Hok HL']. simpl in Hf.
    set (rest := msg_bytes L).
    assert (Hpre' : B = (pre ++ pf_bytes pf) ++ msg_bytes L).
    { rewrite HB, msg_bytes_cons, app_assoc. reflexivity. }
    assert (Hspan : forall e, e = Z.of_nat (length (pre ++ pf_bytes pf)) ->
              subarray B (Z.of_nat (length pre)) (JFin e) = pf_bytes pf).
    { intros e ->. rewrite length_app, Nat2Z.inj_add.
      apply (subarray_mid B pre (pf_bytes pf) rest).
      rewrite HB, msg_bytes_cons. reflexivity. }
    destruct pf as [m p|m v]; destruct Hok as [Hm Hv]; cbn [pf_num] in Hm.
    + (* a length-delimited field *)
      set (t := m * 8 + 2).
      set (lp := Z.of_nat (length p)).
      destruct (encodeTag_value m 2 Hm ltac:(lia)) as (Etag & Ewt & Enum).
      assert (HB1 : B = pre ++ encodeVarint t ++ (encodeVarint lp ++ p ++ rest)).
      { rewrite HB, msg_bytes_cons. cbn [pf_bytes]. unfold ld_field. rewrite Etag.
        rewrite <- !app_assoc. reflexivity. }
      assert (HlenB : length B = (length pre + length (encodeVarint t) +
                       length (encodeVarint lp) + length p + length rest)%nat).
      { rewrite HB1, !length_app. lia. }
      pose proof (encodeVarint_nonempty t) as Hne.
      set (d := Z.of_nat (length pre) + Z.of_nat (length (encodeVarint t))).
      set (d' := d + Z.of_nat (length (encodeVarint lp))).
      assert (R1 : readVarint B (Z.of_nat (length pre)) = (JFin t, d)).
      { rewrite HB1, readVarint_encode by lia.
        rewrite Number_of_bigint_small by lia. reflexivity. }
      assert (HB2 : B = (pre ++ encodeVarint t) ++ encodeVarint lp ++ (p ++ rest))
        by (rewrite HB1, <- app_assoc; reflexivity).
      assert (R2 : readVarint B d = (JFin lp, d')).
      { assert (Hd : d = Z.of_nat (length (pre ++ encodeVarint t)))
          by (unfold d; rewrite length_app; lia).
        rewrite HB2, Hd, readVarint_encode by lia.
        rewrite Number_of_bigint_small by lia. unfold d', d.
        rewrite length_app. f_equal. lia. }
      destruct (Z.ltb_spec (Z.of_nat (length pre)) (Z.of_nat (length B))); [|lia].
      rewrite R1. cbv zeta. fold t in Ewt, Enum. rewrite Ewt, Enum.
      cbn [skipField]. rewrite R2. cbn [js_add].
      rewrite Number_of_bigint_small by lia.
      assert (He : d' + lp = Z.of_nat (length (pre ++ pf_bytes (LenDelim m p)))).
      { rewrite length_app. cbn [pf_bytes].
        rewrite ld_field_length by exact Hm. fold t lp. unfold d', d. lia. }
      rewrite He.
      destruct (IH HL' (pre ++ pf_bytes (LenDelim m p)) fuel Hpre' ltac:(lia))
        as [IH1 IH2].
      destruct (scan_loop B fuel (JFin (Z.of_nat (length (pre ++ pf_bytes (LenDelim m p))))))
        as [fs st].
      simpl in IH1, IH2 |- *. split; [exact IH1|]. rewrite IH2. f_equal.
      cbn [pf_bytes] in *.
      unfold span. cbn [f_start f_end]. rewrite (Hspan _ eq_refl).
      unfold decode_field, ld_payload. cbn [f_wt f_num f_data f_end]. rewrite R2.
      rewrite <- He.
      assert (Hd' : d' = Z.of_nat (length (pre ++ encodeVarint t ++ encodeVarint lp))).
      { unfold d', d. rewrite !length_app. lia. }
      assert (HB3 : B = (pre ++ encodeVarint t ++ encodeVarint lp) ++ p ++ rest).
      { rewrite HB1, !app_assoc. reflexivity. }
      assert (Hsub : subarray B d' (JFin (d' + lp)) = p).
      { rewrite Hd'. exact (subarray_mid B _ p rest HB3). }
      rewrite Hsub. reflexivity.
    + (* a varint field *)
      set (t := m * 8 + 0).
      destruct (encodeTag_value m 0 Hm ltac:(lia)) as (Etag & Ewt & Enum).
      assert (HB1 : B = pre ++ encodeVarint t ++ (encodeVarint v ++ rest)).
      { rewrite HB, msg_bytes_cons. cbn [pf_bytes]. rewrite Etag.
        rewrite <- !app_assoc. reflexivity. }
      pose proof (encodeVarint_nonempty t) as Hne.
      pose proof (encodeVarint_nonempty v) as Hne'.
      assert (HlenB : length B = (length pre + length (encodeVarint t) +
                       length (encodeVarint v) + length rest)%nat).
      { rewrite HB1, !length_app. lia. }
      set (d := Z.of_nat (length pre) + Z.of_nat (length (encodeVarint t))).
      set (d' := d + Z.of_nat (length (encodeVarint v))).
      assert (R1 : readVarint B (Z.of_nat (length pre)) = (JFin t, d)).
      { rewrite HB1, readVarint_encode by lia.
        rewrite Number_of_bigint_small by lia. reflexivity. }
      assert (R2 : readVarint B d = (JFin v, d')).
      { assert (HB2 : B = (pre ++ encodeVarint t) ++ encodeVarint v ++ rest)
          by (rewrite HB1, <- app_assoc; reflexivity).
        assert (Hd : d = Z.of_nat (length (pre ++ encodeVarint t)))
          by (unfold d; rewrite length_app; lia).
        rewrite HB2, Hd, readVarint_encode by lia.
        rewrite Number_of_bigint_small by lia. unfold d', d.
        rewrite length_app. f_equal. lia. }
      destruct (Z.ltb_spec (Z.of_nat (length pre)) (Z.of_nat (length B))); [|lia].
      rewrite R1. cbv zeta. fold t in Ewt, Enum. rewrite Ewt, Enum.
      cbn [skipField]. rewrite R2. cbn [snd].
      assert (He : d' = Z.of_nat (length (pre ++ pf_bytes (VarintF m v)))).
      { rewrite length_app. cbn [pf_bytes]. rewrite Etag, length_app.
        fold t. unfold d', d. lia. }
      rewrite He.
      destruct (IH HL' (pre ++ pf_bytes (VarintF m v)) fuel Hpre' ltac:(lia))
        as [IH1 IH2].
      destruct (scan_loop B fuel (JFin (Z.of_nat (length (pre ++ pf_bytes (VarintF m v))))))
        as [fs st].
      simpl in IH1, IH2 |- *. split; [exact IH1|]. rewrite IH2. f_equal.
      cbn [pf_bytes] in *.
      unfold span. cbn [f_start f_end]. rewrite (Hspan _ eq_refl).
      unfold decode_field, varint_value. cbn [f_wt f_num f_data].
      rewrite R2. reflexivity.
Qed.

Lemma scan_msg (L : list pfield) :
  Forall pf_ok L ->
  Z.of_nat (length (msg_bytes L)) < 2 ^ 53 ->
  snd (scan (msg_bytes L)) = ScanEnd /\
  map (fun f => (decode_field (msg_bytes L) f, span (msg_bytes L) f))
      (fst (scan (msg_bytes L)))
  = map (fun pf => (pf, pf_bytes pf)) L.
Proof.
  intros HL Hl. unfold scan.
  pose proof (msg_bytes_length L) as Hlen.
  exact (scan_loop_msg (msg_bytes L) [] L (S (length (msg_bytes L)))
           eq_refl HL Hl ltac:(lia)).
Qed.

Lemma pf_num_decode (B : list byte) (f : field) : pf_num (decode_field B f) = f_num f.
Proof. unfold decode_field. destruct (f_wt f =? 0); reflexivity. Qed.

Lemma filter_spans_msg (B : list byte) (n : Z) (fs : list field) (L : list pfield) :
  map (fun f => (decode_field B f, span B f)) fs = map (fun pf => (pf, pf_bytes pf)) L ->
  concat (map (span B) (List.filter (kept n) fs))
  = msg_bytes (List.filter (pf_kept n) L).
Proof.
  revert L. induction fs as [|f fs IH]; intros [|pf L] H; try discriminate.
  - reflexivity.
  - cbn [map] in H. injection H as E1 E2 E3.
    cbn [List.filter]. unfold kept at 1, pf_kept at 1.
    subst pf. rewrite pf_num_decode.
    destruct (negb (f_num f =? n)).
    + cbn [map concat]. rewrite msg_bytes_cons, (IH L E3), E2. reflexivity.
    + exact (IH L E3).
Qed.

Lemma removeField_msg (L : list pfield) (n : Z) :
  Forall pf_ok L ->
  Z.of_nat (length (msg_bytes L)) < 2 ^ 53 ->
  removeField (msg_bytes L) n = Done (msg_bytes (List.filter (pf_kept n) L)).
Proof.
  intros HL Hl. rewrite removeField_scan.
  destruct (scan_msg L HL Hl) as [H1 H2].
  destruct (scan (msg_bytes L)) as [fs st]. simpl in H1, H2. subst st.
  f_equal. apply filter_spans_msg. exact H2.
Qed.

Lemma reads_msg (L : list pfield) :
  Forall pf_ok L ->
  Z.of_nat (length (msg_bytes L)) < 2 ^ 53 ->
  reads (msg_bytes L) L.
Proof.
  intros HL Hl. destruct (scan_msg L HL Hl) as [H1 H2]. split; [exact H1|].
  apply (f_equal (map fst)) in H2. rewrite !map_map in H2. simpl in H2.
  rewrite map_id in H2. exact H2.
Qed.

Lemma msg_bytes_filter_length (P : pfield -> bool) (L : list pfield) :
  (length (msg_bytes (List.filter P L)) <= length (msg_bytes L))%nat.
Proof.
  induction L as [|pf L IH]; [simpl; lia|].
  cbn [List.filter]. destruct (P pf); rewrite !msg_bytes_cons, !length_app; lia.
Qed.

Lemma Forall_filter_list {A : Type} (Q : A -> Prop) (P : A -> bool) (L : list A) :
  Forall Q L -> Forall Q (List.filter P L).
Proof.
  intros H. induction H as [|x L Hx HL IH]; [constructor|].
  cbn [List.filter]. destruct (P x); [constructor|]; assumption.
Qed.

Lemma filter_pf_kept_idem (n : Z) (L : list pfield) :
  List.filter (pf_kept n) (List.filter (pf_kept n) L) = List.filter (pf_kept n) L.
Proof.
  induction L as [|pf L IH]; [reflexivity|].
  cbn [List.filter]. destruct (pf_kept n pf) eqn:E; [|exact IH].
  cbn [List.filter]. rewrite E, IH. reflexivity.
Qed.

Lemma filter_pf_kept_comm (n m : Z) (L : list pfield) :
  List.filter (pf_kept m) (List.filter (pf_kept n) L)
  = List.filter (pf_kept n) (List.filter (pf_kept m) L).
Proof.
  induction L as [|pf L IH]; [reflexivity|].
  cbn [List.filter].
  destruct (pf_kept n pf) eqn:En, (pf_kept m pf) eqn:Em; cbn [List.filter];
    rewrite ?En, ?Em, IH; reflexivity.
Qed.

(* ------------------------------------------------------------------ *)
(** ** Further properties of the wire code *)

(** The scan of [removeField], on a buffer written field by field with
    [encodeTag] and [encodeVarint] (varint and length-delimited fields,
    field numbers below [2^28], varint values exact numbers), ends without
    error and meets exactly these fields in order: each spans its own bytes,
    and reading its varint gives back its value or its length, so each
    reads back as itself. *)
Theorem scan_reads_message (L : list pfield) :
  Forall pf_ok L ->
  Z.of_nat (length (msg_bytes L)) < 2 ^ 53 ->
  reads (msg_bytes L) L /\
  map (span (msg_bytes L)) (fst (scan (msg_bytes L))) = map pf_bytes L.
Proof.
  intros HL Hl. split; [exact (reads_msg L HL Hl)|].
  destruct (scan_msg L HL Hl) as [_ H2].
  apply (f_equal (map snd)) in H2. rewrite !map_map in H2. exact H2.
Qed.

Lemma scan_reads_message_witness :
  (Forall pf_ok [VarintF 1 150; LenDelim 2 (bytes_of_Z [65; 66]); VarintF 3 0] /\
   Z.of_nat (length (msg_bytes [VarintF 1 150; LenDelim 2 (bytes_of_Z [65; 66]);
                                VarintF 3 0])) < 2 ^ 53) /\
  reads (msg_bytes [VarintF 1 150; LenDelim 2 (bytes_of_Z [65; 66]); VarintF 3 0])
        [VarintF 1 150; LenDelim 2 (bytes_of_Z [65; 66]); VarintF 3 0] /\
  map (span (msg_bytes [VarintF 1 150; LenDelim 2 (bytes_of_Z [65; 66]); VarintF 3 0]))
      (fst (scan (msg_bytes [VarintF 1 150; LenDelim 2 (bytes_of_Z [65; 66]);
                             VarintF 3 0])))
  = map pf_bytes [VarintF 1 150; LenDelim 2 (bytes_of_Z [65; 66]); VarintF 3 0].
Proof.
  assert (H1 : Forall pf_ok [VarintF 1 150; LenDelim 2 (bytes_of_Z [65; 66]); VarintF 3 0])
    by (repeat constructor; cbn; lia).
  assert (H2 : Z.of_nat (length (msg_bytes [VarintF 1 150; LenDelim 2 (bytes_of_Z [65; 66]);
                                             VarintF 3 0])) < 2 ^ 53)
    by (vm_compute; reflexivity).
  split; [split; assumption|].
  exact (scan_reads_message _ H1 H2).
Defined.

(** On such a message, [removeField(B, n)] returns the message of the
    fields not numbered [n], in their order; removing [n] again changes
    nothing, and removing two numbers gives the same bytes in either
    order. *)
Theorem removeField_message (L : list pfield) (n m : Z) :
  Forall pf_ok L ->
  Z.of_nat (length (msg_bytes L)) < 2 ^ 53 ->
  removeField (msg_bytes L) n = Done (msg_bytes (List.filter (pf_kept n) L)) /\
  removeField (msg_bytes (List.filter (pf_kept n) L)) n
    = Done (msg_bytes (List.filter (pf_kept n) L)) /\
  removeField (msg_bytes (List.filter (pf_kept n) L)) m
    = removeField (msg_bytes (List.filter (pf_kept m) L)) n.
Proof.
  intros HL Hl.
  pose proof (msg_bytes_filter_length (pf_kept n) L) as Ln.
  pose proof (msg_bytes_filter_length (pf_kept m) L) as Lm.
  pose proof (Forall_filter_list pf_ok (pf_kept n) L HL) as Fn.
  pose proof (Forall_filter_list pf_ok (pf_kept m) L HL) as Fm.
  split; [exact (removeField_msg L n HL Hl)|]. split.
  - rewrite removeField_msg by (auto; lia). rewrite filter_pf_kept_idem. reflexivity.
  - rewrite !removeField_msg by (auto; lia). rewrite filter_pf_kept_comm. reflexivity.
Qed.

Lemma removeField_message_witness :
  (Forall pf_ok [LenDelim 6 []; VarintF 1 7; LenDelim 6 (bytes_of_Z [1]); VarintF 9 2] /\
   Z.of_nat (length (msg_bytes [LenDelim 6 []; VarintF 1 7; LenDelim 6 (bytes_of_Z [1]);
                                VarintF 9 2])) < 2 ^ 53) /\
  removeField (msg_bytes [LenDelim 6 []; VarintF 1 7; LenDelim 6 (bytes_of_Z [1]);
                          VarintF 9 2]) 6
  = Done (msg_bytes (List.filter (pf_kept 6)
            [LenDelim 6 []; VarintF 1 7; LenDelim 6 (bytes_of_Z [1]); VarintF 9 2])).
Proof.
  assert (H1 : Forall pf_ok [LenDelim 6 []; VarintF 1 7; LenDelim 6 (bytes_of_Z [1]);
                             VarintF 9 2]) by (repeat constructor; cbn; lia).
  assert (H2 : Z.of_nat (length (msg_bytes [LenDelim 6 []; VarintF 1 7;
                 LenDelim 6 (bytes_of_Z [1]); VarintF 9 2])) < 2 ^ 53)
    by (vm_compute; reflexivity).
  split; [split; assumption|].
  exact (proj1 (removeField_message _ 6 1 H1 H2)).
Defined.

Lemma sublist_filter_spans (B : list byte) (n : Z) (fs : list field) :
  sublist (concat (map (span B) (List.filter (kept n) fs))) (concat (map (span B) fs)).
Proof.
  induction fs as [|f fs IH]; [constructor|].
  cbn [List.filter]. destruct (kept n f); cbn [map concat].
  - apply sublist_app; [reflexivity|exact IH].
  - apply sublist_inserts_l. exact IH.
Qed.

(** Whatever the buffer, when [removeField] returns, its result is the
    buffer with some bytes deleted: an order-preserving sub-sequence of it,
    never longer. *)
Theorem removeField_sublist (B out : list byte) (n : Z) :
  Z.of_nat (length B) < 2 ^ 53 ->
  removeField B n = Done out ->
  sublist out B /\ (length out <= length B)%nat.
Proof.
  intros Hl H. rewrite removeField_scan in H.
  destruct (scan B) as [fs st] eqn:Hs.
  destruct st; try discriminate. injection H as <-.
  assert (Hc : concat (map (span B) fs) = B).
  { unfold scan in Hs. rewrite (scan_cover B _ 0 fs Hl ltac:(lia) Hs). reflexivity. }
  assert (Hsub : sublist (concat (map (span B) (List.filter (kept n) fs))) B).
  { rewrite <- Hc at 2. apply sublist_filter_spans. }
  split; [exact Hsub|]. apply sublist_length. exact Hsub.
Qed.

Lemma removeField_sublist_witness :
  (Z.of_nat (length (bytes_of_Z [8; 1; 18; 1; 65; 9])) < 2 ^ 53 /\
   removeField (bytes_of_Z [8; 1; 18; 1; 65; 9]) 2 = Done (bytes_of_Z [8; 1; 9])) /\
  sublist (bytes_of_Z [8; 1; 9]) (bytes_of_Z [8; 1; 18; 1; 65; 9]) /\
  Nat.le (length (bytes_of_Z [8; 1; 9])) (length (bytes_of_Z [8; 1; 18; 1; 65; 9])).
Proof.
  assert (H1 : Z.of_nat (length (bytes_of_Z [8; 1; 18; 1; 65; 9])) < 2 ^ 53)
    by (vm_compute; reflexivity).
  assert (H2 : removeField (bytes_of_Z [8; 1; 18; 1; 65; 9]) 2 = Done (bytes_of_Z [8; 1; 9]))
    by (vm_compute; reflexivity).
  split; [split; assumption|].
  exact (removeField_sublist _ _ 2 H1 H2).
Defined.

(** [readVarint] never moves past the end of the buffer: from an offset
    inside it, it consumes at least one byte and stops at or before the
    end; from an offset at or past the end, it reads nothing and returns
    the value 0 at the same offset. *)
Theorem readVarint_bounds (buffer : list byte) (offset : Z) :
  0 <= offset ->
  (offset < Z.of_nat (length buffer) ->
   offset < snd (readVarint buffer offset) <= Z.of_nat (length buffer)) /\
  (Z.of_nat (length buffer) <= offset -> readVarint buffer offset = (JFin 0, offset)).
Proof.
  intros Ho. split.
  - intros Hlt. apply readVarint_progress. lia.
  - intros Hge. unfold readVarint. rewrite drop_ge by lia. cbn [read_loop].
    rewrite Z.add_0_r. reflexivity.
Qed.

Lemma readVarint_bounds_witness :
  0 <= 3 /\
  readVarint (bytes_of_Z [172; 2]) 3 = (JFin 0, 3).
Proof.
  assert (H : 0 <= 3) by lia. split; [exact H|].
  apply (proj2 (readVarint_bounds (bytes_of_Z [172; 2]) 3 H)). simpl. lia.
Defined.

Lemma encode_loop_length (f : nat) (v : Z) :
  0 <= v < 2 ^ (7 * Z.of_nat (S f)) ->
  length (encode_loop (S f) v) = S (Z.to_nat (Z.log2 v / 7)).
Proof.
  revert v. induction f as [|f IH]; intros v Hv; rewrite encode_loop_S;
    destruct (Z.leb_spec 128 v) as [E|E].
  - simpl in Hv. lia.
  - simpl. destruct (Z.eq_dec v 0) as [->|Hnz]; [reflexivity|].
    assert (Hl : Z.log2 v < 7).
    { apply Z.log2_lt_pow2; [lia|]. simpl. lia. }
    pose proof (Z.log2_nonneg v). rewrite Z.div_small by lia. reflexivity.
  - cbn [length]. rewrite IH by (apply shiftr_7_bound; lia).
    rewrite Z.shiftr_div_pow2 by lia.
    assert (Hlog : Z.log2 (v / 2 ^ 7) = Z.log2 v - 7).
    { rewrite <- Z.shiftr_div_pow2 by lia. rewrite Z.log2_shiftr by lia.
      assert (7 <= Z.log2 v).
      { apply Z.log2_le_pow2; [lia|]. simpl. lia. }
      lia. }
    rewrite Hlog.
    assert (Hdiv : Z.log2 v / 7 = (Z.log2 v - 7) / 7 + 1).
    { replace (Z.log2 v) with ((Z.log2 v - 7) + 1 * 7) at 1 by lia.
      rewrite Z.div_add by lia. reflexivity. }
    assert (0 <= (Z.log2 v - 7) / 7).
    { apply Z.div_pos; [|lia].
      assert (7 <= Z.log2 v) by (apply Z.log2_le_pow2; [lia|simpl; lia]). lia. }
    rewrite Hdiv. lia.
  - simpl. destruct (Z.eq_dec v 0) as [->|Hnz]; [reflexivity|].
    assert (Hl : Z.log2 v < 7).
    { apply Z.log2_lt_pow2; [lia|]. simpl. lia. }
    pose proof (Z.log2_nonneg v). rewrite Z.div_small by lia. reflexivity.
Qed.

(** [encodeVarint(v)] of a non-negative [v] takes one byte per started
    group of 7 bits: [floor(log2 v / 7) + 1] bytes (one byte for 0). *)
Theorem encodeVarint_length (v : Z) :
  0 <= v -> length (encodeVarint v) = S (Z.to_nat (Z.log2 v / 7)).
Proof.
  intros Hv. unfold encodeVarint, bytes_of_Z. rewrite length_map.
  apply encode_loop_length, encode_fuel_enough. exact Hv.
Qed.

Lemma encodeVarint_length_witness :
  0 <= 2 ^ 35 /\ length (encodeVarint (2 ^ 35)) = 6%nat.
Proof.
  assert (H : 0 <= 2 ^ 35) by lia. split; [exact H|].
  rewrite (encodeVarint_length _ H). reflexivity.
Defined.

(** A negative number (a safe integer) given to [encodeVarint] skips the
    loop and comes out as the single byte [v mod 256]; [readVarint] reads
    it back as the non-negative [(v mod 256) & 127], not as [v]. *)
Theorem encodeVarint_negative (v : Z) :
  - 2 ^ 53 < v < 0 ->
  encodeVarint v = [byte_of_Z v] /\
  readVarint (encodeVarint v) 0 = (JFin (Z.land (v mod 256) 127), 1) /\
  0 <= Z.land (v mod 256) 127 < 128.
Proof.
  intros Hv.
  assert (He : encodeVarint v = [byte_of_Z v]).
  { unfold encodeVarint. rewrite Z.log2_nonpos by lia. cbn [Z.to_nat].
    rewrite encode_loop_S. destruct (Z.leb_spec 128 v); [lia|]. reflexivity. }
  split; [exact He|]. split; [|apply land_127_range].
  rewrite He. unfold readVarint.
  change (drop (Z.to_nat 0) [byte_of_Z v]) with [byte_of_Z v]. cbn [read_loop].
  rewrite bval_byte_of_Z, Z.lor_0_l, Z.shiftl_0_r.
  pose proof (land_127_range (v mod 256)) as Hr.
  destruct (Z.land (v mod 256) 128 =? 0); cbn [snd fst];
    rewrite Number_of_bigint_small by lia; reflexivity.
Qed.

Lemma encodeVarint_negative_witness :
  - 2 ^ 53 < -1 < 0 /\
  encodeVarint (-1) = [byte_of_Z (-1)] /\
  readVarint (encodeVarint (-1)) 0 = (JFin 127, 1).
Proof.
  assert (H : - 2 ^ 53 < -1 < 0) by lia. split; [exact H|].
  destruct (encodeVarint_negative (-1) H) as (H1 & H2 & _).
  split; [exact H1|]. rewrite H2. reflexivity.
Defined.

(* ------------------------------------------------------------------ *)
(** ** The credential field and the patch of the state *)

Lemma createOAuthField_msg (a r : jsstr) (e : Z) :
  createOAuthField (Some a) r e
  = msg_bytes [LenDelim 6 (msg_bytes (oauthInfo_fields a r e))].
Proof.
  rewrite createOAuthField_ld. unfold oauthInfo_fields, msg_bytes.
  cbn [map concat pf_bytes]. rewrite app_nil_r. f_equal.
  destruct (js_truthy a), (js_truthy r); cbn [app map concat pf_bytes];
    rewrite ?app_nil_r; reflexivity.
Qed.

Lemma oauthInfo_ok (a r : jsstr) (e : Z) : Forall pf_ok (oauthInfo_fields a r e).
Proof.
  unfold oauthInfo_fields.
  destruct (js_truthy a), (js_truthy r); cbn [app];
    repeat constructor; cbn; lia.
Qed.

Lemma createOAuthField_nonempty (a : option jsstr) (r : jsstr) (e : Z) :
  createOAuthField a r e <> [].
Proof.
  rewrite createOAuthField_ld. unfold ld_field, encodeTag.
  pose proof (encodeVarint_nonempty
    (Z.lor (ToInt32_Z (Z.shiftl (ToInt32_Z 6) 3)) (ToInt32_Z 2))) as H.
  destruct (encodeVarint _); [simpl in H; lia|discriminate].
Qed.

Lemma inject_msg (dec : string -> list byte) (enc : list byte -> string)
    (path : string) (token : TokenData) (db : store) (t : string) (L : list pfield) :
  readDbValue db KEY_STATE = Some t ->
  dec t = msg_bytes L ->
  Forall pf_ok L ->
  Z.of_nat (length (msg_bytes L)) < 2 ^ 53 ->
  injectTokenAndReload dec enc (Some path) token db =
  (Done tt,
   <[KEY_ONBOARDING := "true"]>
     (<[KEY_STATE := enc (msg_bytes (List.filter (pf_kept 6) L) ++
                          createOAuthField (Some (access_token token))
                            (refresh_token token) (expires_in token))]> db)).
Proof.
  intros Hr Hd HL Hl. unfold injectTokenAndReload.
  rewrite Hr, Hd, (removeField_msg L 6 HL Hl). reflexivity.
Qed.

Lemma KEY_ONBOARDING_STATE : KEY_ONBOARDING <> KEY_STATE.
Proof. unfold KEY_ONBOARDING, KEY_STATE. discriminate. Qed.

(** [createOAuthField(a, r, e)] with a given [accessToken] is one
    length-delimited field 6 whose payload reads back, field by field, as
    [1: accessToken] (when non-empty), [2: "Bearer"], [3: refreshToken]
    (when non-empty) and [4: T], and [T] reads back as the varint field
    [1: e]; [e] is a non-negative exact number and the whole below the
    maximal Buffer length. *)
Theorem createOAuthField_decodes (a r : jsstr) (e : Z) :
  0 <= e < 2 ^ 53 ->
  Z.of_nat (length (createOAuthField (Some a) r e)) < 2 ^ 53 ->
  reads (createOAuthField (Some a) r e)
        [LenDelim 6 (msg_bytes (oauthInfo_fields a r e))] /\
  reads (msg_bytes (oauthInfo_fields a r e)) (oauthInfo_fields a r e) /\
  reads (msg_bytes [VarintF 1 e]) [VarintF 1 e].
Proof.
  intros He Hl. rewrite createOAuthField_msg in *.
  assert (HP : (length (msg_bytes (oauthInfo_fields a r e))
                <= length (msg_bytes [LenDelim 6 (msg_bytes (oauthInfo_fields a r e))]))%nat).
  { change (msg_bytes [LenDelim 6 (msg_bytes (oauthInfo_fields a r e))])
      with (ld_field 6 (msg_bytes (oauthInfo_fields a r e)) ++ []).
    unfold ld_field. rewrite !length_app. lia. }
  assert (HI : (length (msg_bytes [VarintF 1 e])
                <= length (msg_bytes (oauthInfo_fields a r e)))%nat).
  { unfold oauthInfo_fields. rewrite !msg_bytes_app.
    change (msg_bytes [LenDelim 4 (msg_bytes [VarintF 1 e])])
      with (ld_field 4 (msg_bytes [VarintF 1 e]) ++ []).
    unfold ld_field. rewrite !length_app. lia. }
  split; [apply reads_msg; [repeat constructor; cbn; lia|exact Hl]|].
  split; [apply reads_msg; [apply oauthInfo_ok|lia]|].
  apply reads_msg; [repeat constructor; cbn; lia|lia].
Qed.

Lemma createOAuthField_decodes_witness :
  (0 <= 3600 < 2 ^ 53 /\
   Z.of_nat (length (createOAuthField (Some (js_of_string "ya29"))
                       (js_of_string "1//r") 3600)) < 2 ^ 53) /\
  reads (createOAuthField (Some (js_of_string "ya29")) (js_of_string "1//r") 3600)
        [LenDelim 6 (msg_bytes (oauthInfo_fields (js_of_string "ya29")
                                  (js_of_string "1//r") 3600))] /\
  reads (msg_bytes (oauthInfo_fields (js_of_string "ya29") (js_of_string "1//r") 3600))
        (oauthInfo_fields (js_of_string "ya29") (js_of_string "1//r") 3600) /\
  reads (msg_bytes [VarintF 1 3600]) [VarintF 1 3600].
Proof.
  assert (H1 : 0 <= 3600 < 2 ^ 53) by lia.
  assert (H2 : Z.of_nat (length (createOAuthField (Some (js_of_string "ya29"))
                                   (js_of_string "1//r") 3600)) < 2 ^ 53)
    by (vm_compute; reflexivity).
  split; [split; assumption|].
  exact (createOAuthField_decodes _ _ _ H1 H2).
Defined.

(** Let the stored state decode to a message of fields [L] (varint and
    length-delimited fields as [encodeTag]/[encodeVarint] write them).
    [injectTokenAndReload] succeeds; it stores the encoding of the fields
    of [L] not numbered 6, in their order, followed by one new field 6
    carrying the token's [oauthInfo], and sets [antigravityOnboarding] to
    "true"; no other key changes. *)
Theorem injectTokenAndReload_message
    (dec : string -> list byte) (enc : list byte -> string) (path : string)
    (token : TokenData) (db : store) (t : string) (L : list pfield) :
  readDbValue db KEY_STATE = Some t ->
  dec t = msg_bytes L ->
  Forall pf_ok L ->
  Z.of_nat (length (msg_bytes L)) < 2 ^ 53 ->
  injectTokenAndReload dec enc (Some path) token db =
  (Done tt,
   <[KEY_ONBOARDING := "true"]>
     (<[KEY_STATE := enc (msg_bytes
          (List.filter (pf_kept 6) L ++
           [LenDelim 6 (msg_bytes (oauthInfo_fields (access_token token)
                                     (refresh_token token) (expires_in token)))]))]>
        db)).
Proof.
  intros Hr Hd HL Hl.
  rewrite (inject_msg dec enc path token db t L Hr Hd HL Hl).
  rewrite createOAuthField_msg, msg_bytes_app. reflexivity.
Qed.

Lemma injectTokenAndReload_message_witness :
  let L := [VarintF 1 150; LenDelim 6 (bytes_of_Z [1; 2]);
            LenDelim 9 (utf8_encode (js_of_string "keep"))] in
  let db : store := <[KEY_STATE := "CJYBMgIBAkoEa2VlcA=="]> ∅ in
  let token := mkToken (js_of_string "ya29") (js_of_string "1//r") 3600 in
  (readDbValue db KEY_STATE = Some "CJYBMgIBAkoEa2VlcA==" /\
   (fun _ : string => msg_bytes L) "CJYBMgIBAkoEa2VlcA==" = msg_bytes L /\
   Forall pf_ok L /\ Z.of_nat (length (msg_bytes L)) < 2 ^ 53) /\
  injectTokenAndReload (fun _ => msg_bytes L) (fun _ => "out") (Some "state.vscdb")
    token db =
  (Done tt,
   <[KEY_ONBOARDING := "true"]>
     (<[KEY_STATE := (fun _ : list byte => "out")
          (msg_bytes (List.filter (pf_kept 6) L ++
             [LenDelim 6 (msg_bytes (oauthInfo_fields (access_token token)
                                       (refresh_token token) (expires_in token)))]))]>
        db)).
Proof.
  cbv zeta.
  assert (H1 : readDbValue (<[KEY_STATE := "CJYBMgIBAkoEa2VlcA=="]> (∅ : store)) KEY_STATE
               = Some "CJYBMgIBAkoEa2VlcA==") by reflexivity.
  assert (H3 : Forall pf_ok [VarintF 1 150; LenDelim 6 (bytes_of_Z [1; 2]);
                             LenDelim 9 (utf8_encode (js_of_string "keep"))])
    by (repeat constructor; cbn; lia).
  assert (H4 : Z.of_nat (length (msg_bytes
                 [VarintF 1 150; LenDelim 6 (bytes_of_Z [1; 2]);
                  LenDelim 9 (utf8_encode (js_of_string "keep"))])) < 2 ^ 53)
    by (vm_compute; reflexivity).
  split; [repeat split; assumption|].
  exact (injectTokenAndReload_message _ (fun _ => "out") "state.vscdb"
           (mkToken (js_of_string "ya29") (js_of_string "1//r") 3600) _
           "CJYBMgIBAkoEa2VlcA==" _ H1 eq_refl H3 H4).
Defined.

(** With no stored state ([readDbValue] gives null), the patch starts from
    an empty buffer: the stored value becomes the encoding of the new
    field 6 alone, and [antigravityOnboarding] is set to "true". *)
Theorem injectTokenAndReload_no_state
    (dec : string -> list byte) (enc : list byte -> string) (path : string)
    (token : TokenData) (db : store) :
  readDbValue db KEY_STATE = None ->
  injectTokenAndReload dec enc (Some path) token db =
  (Done tt,
   <[KEY_ONBOARDING := "true"]>
     (<[KEY_STATE := enc (createOAuthField (Some (access_token token))
                            (refresh_token token) (expires_in token))]> db)).
Proof.
  intros Hr. unfold injectTokenAndReload. rewrite Hr.
  assert (E : removeField [] 6 = Done []) by reflexivity.
  rewrite E. reflexivity.
Qed.

Lemma injectTokenAndReload_no_state_witness :
  readDbValue (∅ : store) KEY_STATE = None /\
  injectTokenAndReload (fun _ => []) (fun _ => "out") (Some "state.vscdb")
    (mkToken (js_of_string "ya29") (js_of_string "1//r") 3600) ∅ =
  (Done tt,
   <[KEY_ONBOARDING := "true"]>
     (<[KEY_STATE := (fun _ : list byte => "out")
          (createOAuthField (Some (js_of_string "ya29")) (js_of_string "1//r") 3600)]>
        (∅ : store))).
Proof.
  assert (H : readDbValue (∅ : store) KEY_STATE = None) by reflexivity.
  split; [exact H|].
  exact (injectTokenAndReload_no_state (fun _ => []) (fun _ => "out") "state.vscdb"
           (mkToken (js_of_string "ya29") (js_of_string "1//r") 3600) ∅ H).
Defined.

(** [injectTokenAndReload] writes only [jetskiStateSync.agentManagerInitState]
    and [antigravityOnboarding]; when it succeeds the latter holds "true";
    when it fails (no database, or an error of [removeField]) it writes
    nothing. *)
Theorem injectTokenAndReload_frame
    (dec : string -> list byte) (enc : list byte -> string) (dbPath : option string)
    (token : TokenData) (db : store) :
  let r := injectTokenAndReload dec enc dbPath token db in
  (forall k, k <> KEY_STATE -> k <> KEY_ONBOARDING -> snd r !! k = db !! k) /\
  (fst r = Done tt -> snd r !! KEY_ONBOARDING = Some "true") /\
  (fst r <> Done tt -> snd r = db).
Proof.
  cbv zeta. unfold injectTokenAndReload.
  destruct dbPath as [p|]; [|cbn [fst snd]; split; [auto|split; [discriminate|auto]]].
  destruct (removeField _ 6) as [clean|e|]; cbn [fst snd].
  - unfold writeDbValue. split; [|split].
    + intros k Hk1 Hk2. rewrite !lookup_insert_ne by congruence. reflexivity.
    + intros _. apply lookup_insert_eq.
    + intros H. contradiction.
  - split; [auto|split; [discriminate|auto]].
  - split; [auto|split; [discriminate|auto]].
Qed.

(** Patching twice is patching once with the second token: with a codec
    whose decoder inverts its encoder and whose text of a non-empty buffer
    is non-empty and free of white space (as base64 is), the second call
    finds the first call's field 6, removes it, and leaves the store the
    second call alone would leave. *)
Theorem injectTokenAndReload_twice
    (dec : string -> list byte) (enc : list byte -> string) (path : string)
    (t1 t2 : TokenData) (db : store) (s : string) (L : list pfield) :
  (forall b, dec (enc b) = b) ->
  (forall b, b <> [] -> enc b <> EmptyString) ->
  (forall b, Forall (fun c => is_ws c = false) (list_ascii_of_string (enc b))) ->
  readDbValue db KEY_STATE = Some s ->
  dec s = msg_bytes L ->
  Forall pf_ok L ->
  Z.of_nat (length (msg_bytes L) +
            length (createOAuthField (Some (access_token t1)) (refresh_token t1)
                      (expires_in t1))) < 2 ^ 53 ->
  injectTokenAndReload dec enc (Some path) t2
    (snd (injectTokenAndReload dec enc (Some path) t1 db))
  = injectTokenAndReload dec enc (Some path) t2 db.
Proof.
  intros Hinv Hne Hws Hr Hd HL Hl.
  assert (Hl1 : Z.of_nat (length (msg_bytes L)) < 2 ^ 53) by lia.
  rewrite (inject_msg dec enc path t1 db s L Hr Hd HL Hl1). cbn [snd].
  set (P1 := msg_bytes (oauthInfo_fields (access_token t1) (refresh_token t1)
                                         (expires_in t1))).
  set (L1 := List.filter (pf_kept 6) L ++ [LenDelim 6 P1]).
  assert (EX : msg_bytes (List.filter (pf_kept 6) L) ++
               createOAuthField (Some (access_token t1)) (refresh_token t1) (expires_in t1)
               = msg_bytes L1).
  { unfold L1, P1. rewrite createOAuthField_msg, msg_bytes_app. reflexivity. }
  rewrite EX.
  assert (Hne1 : msg_bytes L1 <> []).
  { rewrite <- EX. intros H. apply app_eq_nil in H as [_ H].
    exact (createOAuthField_nonempty _ _ _ H). }
  assert (Hr2 : readDbValue (<[KEY_ONBOARDING := "true"]>
                  (<[KEY_STATE := enc (msg_bytes L1)]> db)) KEY_STATE
                = Some (enc (msg_bytes L1))).
  { apply readDbValue_plain; [|exact (Hne _ Hne1)|exact (Hws _)].
    rewrite lookup_insert_ne by exact KEY_ONBOARDING_STATE.
    apply lookup_insert_eq. }
  assert (HL1 : Forall pf_ok L1).
  { unfold L1. apply Forall_app. split; [apply Forall_filter_list, HL|].
    repeat constructor; cbn; lia. }
  assert (Hl2 : Z.of_nat (length (msg_bytes L1)) < 2 ^ 53).
  { rewrite <- EX, length_app.
    pose proof (msg_bytes_filter_length (pf_kept 6) L). lia. }
  rewrite (inject_msg dec enc path t2 _ _ L1 Hr2 (Hinv _) HL1 Hl2).
  rewrite (inject_msg dec enc path t2 db s L Hr Hd HL Hl1).
  unfold L1. rewrite List.filter_app, filter_pf_kept_idem. cbn [List.filter].
  replace (pf_kept 6 (LenDelim 6 P1)) with false by reflexivity.
  rewrite app_nil_r.
  rewrite (insert_insert_ne _ KEY_STATE KEY_ONBOARDING)
    by (intros H; exact (KEY_ONBOARDING_STATE (eq_sym H))).
  rewrite insert_insert_eq, insert_insert_eq. reflexivity.
Qed.

Lemma letters_byte (b : byte) (rest : string) :
  letters_decode (letters_encode [b] +:+ rest) = b :: letters_decode rest.
Proof. destruct b; reflexivity. Qed.

Lemma letters_roundtrip (bs : list byte) : letters_decode (letters_encode bs) = bs.
Proof.
  induction bs as [|b bs IH]; [reflexivity|].
  change (letters_encode (b :: bs)) with (letters_encode [b] +:+ letters_encode bs).
  rewrite letters_byte, IH. reflexivity.
Qed.

Lemma letters_nonempty (bs : list byte) : bs <> [] -> letters_encode bs <> EmptyString.
Proof. destruct bs; [congruence|discriminate]. Qed.

Lemma letters_no_ws (bs : list byte) :
  Forall (fun c => is_ws c = false) (list_ascii_of_string (letters_encode bs)).
Proof.
  induction bs as [|b bs IH]; [constructor|].
  cbn [letters_encode list_ascii_of_string].
  constructor; [|constructor; [|exact IH]]; destruct b; reflexivity.
Qed.

Lemma injectTokenAndReload_twice_witness :
  let L := [VarintF 1 150; LenDelim 6 (bytes_of_Z [1; 2])] in
  let s := letters_encode (msg_bytes L) in
  let db : store := <[KEY_STATE := s]> ∅ in
  let t1 := mkToken (js_of_string "ya29") (js_of_string "1//r") 3600 in
  let t2 := mkToken (js_of_string "ya30") [] 7200 in
  ((forall b, letters_decode (letters_encode b) = b) /\
   (forall b, b <> [] -> letters_encode b <> EmptyString) /\
   (forall b, Forall (fun c => is_ws c = false) (list_ascii_of_string (letters_encode b))) /\
   readDbValue db KEY_STATE = Some s /\
   letters_decode s = msg_bytes L /\
   Forall pf_ok L /\
   Z.of_nat (length (msg_bytes L) +
             length (createOAuthField (Some (access_token t1)) (refresh_token t1)
                       (expires_in t1))) < 2 ^ 53) /\
  injectTokenAndReload letters_decode letters_encode (Some "state.vscdb") t2
    (snd (injectTokenAndReload letters_decode letters_encode (Some "state.vscdb") t1 db))
  = injectTokenAndReload letters_decode letters_encode (Some "state.vscdb") t2 db.
Proof.
  cbv zeta.
  assert (H4 : readDbValue (<[KEY_STATE := letters_encode (msg_bytes
                 [VarintF 1 150; LenDelim 6 (bytes_of_Z [1; 2])])]> (∅ : store)) KEY_STATE
               = Some (letters_encode (msg_bytes
                   [VarintF 1 150; LenDelim 6 (bytes_of_Z [1; 2])]))) by reflexivity.
  assert (H6 : Forall pf_ok [VarintF 1 150; LenDelim 6 (bytes_of_Z [1; 2])])
    by (repeat constructor; cbn; lia).
  assert (H7 : Z.of_nat (length (msg_bytes [VarintF 1 150; LenDelim 6 (bytes_of_Z [1; 2])]) +
             length (createOAuthField (Some (js_of_string "ya29")) (js_of_string "1//r")
                       3600)) < 2 ^ 53) by (vm_compute; reflexivity).
  split.
  - split; [exact letters_roundtrip|]. split; [exact letters_nonempty|].
    split; [exact letters_no_ws|]. split; [exact H4|].
    split; [apply letters_roundtrip|]. split; [exact H6|exact H7].
  - exact (injectTokenAndReload_twice letters_decode letters_encode "state.vscdb"
             (mkToken (js_of_string "ya29") (js_of_string "1//r") 3600)
             (mkToken (js_of_string "ya30") [] 7200) _ _ _
             letters_roundtrip letters_nonempty letters_no_ws H4
             (letters_roundtrip _) H6 H7).
Defined.

(* ------------------------------------------------------------------ *)
(** ** Reading and writing the table *)

Lemma trim_start_empty (s : string) :
  trim_start s = EmptyString <->
  Forall (fun c => is_ws c = true) (list_ascii_of_string s).
Proof.
  induction s as [|c s IH]; cbn [trim_start list_ascii_of_string];
    [split; auto|].
  destruct (is_ws c) eqn:E.
  - rewrite IH. split; [intros H; constructor; auto|intros H; inversion H; auto].
  - split; [discriminate|intros H; inversion H; congruence].
Qed.

Lemma trim_start_head (s r : string) (c : ascii) :
  trim_start s = String c r -> is_ws c = false.
Proof.
  induction s as [|d s IH]; cbn [trim_start]; [discriminate|].
  destruct (is_ws d) eqn:E; [exact IH|].
  intros H. injection H as -> ->. exact E.
Qed.

Lemma string_of_list_ascii_nil (l : list ascii) :
  string_of_list_ascii l = EmptyString -> l = [].
Proof. destruct l; [auto|discriminate]. Qed.

Lemma trim_empty (s : string) : trim s = EmptyString <-> trim_start s = EmptyString.
Proof.
  unfold trim. split; [|intros H; rewrite H; reflexivity].
  intros H. destruct (trim_start s) as [|c r] eqn:E; [reflexivity|exfalso].
  apply trim_start_head in E.
  apply string_of_list_ascii_nil in H.
  destruct (trim_start (string_of_list_ascii (rev (list_ascii_of_string (String c r)))))
    as [|c' r'] eqn:Eu.
  - apply trim_start_empty in Eu.
    rewrite list_ascii_of_string_of_list_ascii, List.Forall_forall in Eu.
    assert (Hin : In c (rev (list_ascii_of_string (String c r))))
      by (apply in_rev; rewrite rev_involutive; left; reflexivity).
    apply Eu in Hin. congruence.
  - cbn [list_ascii_of_string] in H. apply (f_equal (@length ascii)) in H.
    rewrite length_rev in H. discriminate.
Qed.

(** [readDbValue] gives null exactly when the key has no row or its value
    is white space only (the empty text included): [stdout.trim() || null]. *)
Theorem readDbValue_none (db : store) (key : string) :
  readDbValue db key = None <->
  db !! key = None \/
  exists v, db !! key = Some v /\
            Forall (fun c => is_ws c = true) (list_ascii_of_string v).
Proof.
  unfold readDbValue. destruct (db !! key) as [v|].
  2:{ split; [intros _; left; reflexivity|reflexivity]. }
  assert (Hiff : trim (v +:+ newline) = EmptyString <->
                 Forall (fun c => is_ws c = true) (list_ascii_of_string v)).
  { rewrite trim_empty, trim_start_empty, list_ascii_of_string_app, Forall_app.
    change (list_ascii_of_string newline) with [ascii_of_nat 10].
    split; [tauto|intros H; split; [exact H|repeat constructor]]. }
  destruct (trim (v +:+ newline)) as [|c r] eqn:E.
  - split; [intros _; right; exists v; split; [reflexivity|apply Hiff; reflexivity]
           |reflexivity].
  - split; [discriminate|].
    intros [H|[v' [H1 H2]]]; [discriminate|].
    injection H1 as <-. apply Hiff in H2. congruence.
Qed.

(** A value with no white space written by [writeDbValue] is what
    [readDbValue] gives back for its key (the CLI's trailing newline is
    trimmed); the other keys read as before. *)
Theorem writeDbValue_readDbValue (db : store) (key other value : string) :
  value <> EmptyString ->
  Forall (fun c => is_ws c = false) (list_ascii_of_string value) ->
  readDbValue (writeDbValue db key value) key = Some value /\
  (other <> key -> readDbValue (writeDbValue db key value) other = readDbValue db other).
Proof.
  intros Hne Hws. split.
  - apply readDbValue_plain; [apply lookup_insert_eq|exact Hne|exact Hws].
  - intros Ho. unfold readDbValue, writeDbValue.
    rewrite lookup_insert_ne by congruence. reflexivity.
Qed.

Lemma writeDbValue_readDbValue_witness :
  ("dHJ1ZQ==" <> EmptyString /\
   Forall (fun c => is_ws c = false) (list_ascii_of_string "dHJ1ZQ==")) /\
  readDbValue (writeDbValue (<["other" := " x "]> ∅) "key" "dHJ1ZQ==") "key"
    = Some "dHJ1ZQ==" /\
  ("other" <> "key" ->
   readDbValue (writeDbValue (<["other" := " x "]> ∅) "key" "dHJ1ZQ==") "other"
   = readDbValue (<["other" := " x "]> ∅) "other").
Proof.
  assert (H1 : "dHJ1ZQ==" <> EmptyString) by discriminate.
  assert (H2 : Forall (fun c => is_ws c = false) (list_ascii_of_string "dHJ1ZQ=="))
    by (repeat constructor).
  split; [split; assumption|].
  exact (writeDbValue_readDbValue _ "key" "other" "dHJ1ZQ==" H1 H2).
Defined.

Lemma string_app_assoc (s t u : string) : (s +:+ t) +:+ u = s +:+ (t +:+ u).
Proof.
  induction s as [|c s IH]; [reflexivity|].
  change ((String c s +:+ t) +:+ u) with (String c ((s +:+ t) +:+ u)).
  change (String c s +:+ (t +:+ u)) with (String c (s +:+ (t +:+ u))).
  rewrite IH. reflexivity.
Qed.

Lemma sql_escape_body (v r : string) :
  match r with String c _ => Ascii.eqb c "'"%char = false | EmptyString => True end ->
  sql_literal_body (escapeValue v +:+ String "'"%char r) = Some (v, r).
Proof.
  intros Hr. induction v as [|c v IH].
  - change (escapeValue EmptyString +:+ String "'"%char r) with (String "'"%char r).
    destruct r as [|c2 r2]; [reflexivity|].
    cbn [sql_literal_body]. rewrite Hr. reflexivity.
  - cbn [escapeValue]. destruct (Ascii.eqb c "'"%char) eqn:E.
    + change (String "'"%char (String "'"%char (escapeValue v)) +:+ String "'"%char r)
        with (String "'"%char (String "'"%char (escapeValue v +:+ String "'"%char r))).
      cbn [sql_literal_body]. rewrite IH.
      apply Ascii.eqb_eq in E. subst c. reflexivity.
    + change (String c (escapeValue v) +:+ String "'"%char r)
        with (String c (escapeValue v +:+ String "'"%char r)).
      cbn [sql_literal_body]. rewrite E, IH. reflexivity.
Qed.

(** The command [writeDbValue] runs ends with the escaped value, the
    closing quote of the value literal, [)] and the closing double quote.
    Read by SQLite's rule for string literals ([''] is one quote, a lone
    quote ends the literal), the value literal holds exactly [value],
    whatever single quotes it contains, and is followed by [)] and the
    double quote; a value with no single quote is sent unchanged. The
    shell's own reading of the double-quoted argument is not modelled. *)
Theorem writeDbCommand_value (dbPath key value : string) :
  writeDbCommand dbPath key value =
    ("sqlite3 " +:+ dq +:+ dbPath +:+ dq +:+ " " +:+ dq +:+
     "INSERT OR REPLACE INTO ItemTable (key, value) VALUES ('" +:+ key +:+ "', '")
    +:+ (escapeValue value +:+ "')" +:+ dq) /\
  sql_literal_body (escapeValue value +:+ "')" +:+ dq) = Some (value, ")" +:+ dq) /\
  (Forall (fun c => c <> "'"%char) (list_ascii_of_string value) ->
   escapeValue value = value).
Proof.
  split; [unfold writeDbCommand; rewrite !string_app_assoc; reflexivity|].
  split.
  - change ("')" +:+ dq) with (String "'"%char (")" +:+ dq)).
    apply sql_escape_body. reflexivity.
  - induction value as [|c v IH]; [reflexivity|].
    intros H. inversion H as [|? ? Hc Hv]; subst. cbn [escapeValue].
    destruct (Ascii.eqb c "'"%char) eqn:E.
    + apply Ascii.eqb_eq in E. contradiction.
    + rewrite (IH Hv). reflexivity.
Qed.

(* ------------------------------------------------------------------ *)
(** ** Finding the database *)

(** With no cached path, [getDbPath] returns the first existing path among
    [globalStorage/../state.vscdb] and the four candidates, in that order,
    and caches it (null, and no cache, when none exists). A cached
    non-empty path is returned again whatever the file system holds. *)
Theorem getDbPath_search (path_dirname : string -> string)
    (path_join : string -> string -> string) (homedir globalStorageFsPath : string)
    (pathExists : string -> bool) :
  getDbPath path_dirname path_join homedir globalStorageFsPath pathExists None =
    (firstExisting pathExists
       (path_join (path_dirname globalStorageFsPath) "state.vscdb"
          :: dbCandidates path_join homedir),
     firstExisting pathExists
       (path_join (path_dirname globalStorageFsPath) "state.vscdb"
          :: dbCandidates path_join homedir)) /\
  (forall (pathExists' : string -> bool) (p : string), p <> EmptyString ->
   getDbPath path_dirname path_join homedir globalStorageFsPath pathExists' (Some p)
   = (Some p, Some p)).
Proof.
  split.
  - unfold getDbPath. cbn [firstExisting].
    destruct (pathExists _); [reflexivity|].
    destruct (firstExisting _ _); reflexivity.
  - intros pathExists' p Hp. unfold getDbPath.
    destruct p; [congruence|reflexivity].
Qed.

(* ------------------------------------------------------------------ *)
(** ** The account index *)

Lemma findIndex_Some {A : Type} (p : A -> bool) (l : list A) (i : nat) :
  findIndex p l = Some i -> exists x, l !! i = Some x /\ p x = true.
Proof.
  revert i. induction l as [|a l IH]; intros i; cbn [findIndex]; [discriminate|].
  destruct (p a) eqn:E.
  - intros H. injection H as <-. exists a. split; [reflexivity|exact E].
  - destruct (findIndex p l) as [n|] eqn:F; cbn [option_map]; [|discriminate].
    intros H. injection H as <-. destruct (IH n eq_refl) as [x [H1 H2]].
    exists x. split; [exact H1|exact H2].
Qed.

Lemma findIndex_None {A : Type} (p : A -> bool) (l : list A) :
  findIndex p l = None -> forall x, In x l -> p x = false.
Proof.
  induction l as [|a l IH]; cbn [findIndex]; [intros _ x []|].
  destruct (p a) eqn:E; [discriminate|].
  destruct (findIndex p l); [discriminate|].
  intros _ x [<-|H]; [exact E|exact (IH eq_refl x H)].
Qed.

Lemma lookup_In {A : Type} (l : list A) (i : nat) (x : A) : l !! i = Some x -> In x l.
Proof.
  revert i. induction l as [|a l IH]; intros [|i] H; try discriminate.
  - injection H as <-. left. reflexivity.
  - right. exact (IH i H).
Qed.

Lemma map_insert_same {A B : Type} (f : A -> B) (l : list A) (i : nat) (x y : A) :
  l !! i = Some x -> f x = f y -> map f (<[i:=y]> l) = map f l.
Proof.
  revert i. induction l as [|a l IH]; intros [|i] H Hf; try discriminate.
  - injection H as ->. simpl. rewrite Hf. reflexivity.
  - simpl. rewrite (IH i H Hf). reflexivity.
Qed.

Lemma In_insert {A : Type} (l : list A) (i : nat) (y z : A) :
  In z (<[i:=y]> l) -> z = y \/ In z l.
Proof.
  revert i. induction l as [|a l IH]; intros [|i]; simpl; [tauto|tauto| |].
  - intros [H|H]; [left; congruence|right; right; exact H].
  - intros [H|H]; [right; left; exact H|]. destruct (IH i H); tauto.
Qed.

Lemma In_insert_new {A : Type} (l : list A) (i : nat) (x y : A) :
  l !! i = Some x -> In y (<[i:=y]> l).
Proof.
  revert i. induction l as [|a l IH]; intros [|i] H; try discriminate;
    simpl; [left; reflexivity|right; exact (IH i H)].
Qed.

Lemma In_insert_keep {A : Type} (l : list A) (i : nat) (x y z : A) :
  l !! i = Some x -> In z l -> z <> x -> In z (<[i:=y]> l).
Proof.
  revert i. induction l as [|a l IH]; intros [|i] H Hz Hne; try discriminate.
  - injection H as ->. destruct Hz as [->|Hz]; [contradiction|right; exact Hz].
  - simpl. destruct Hz as [->|Hz]; [left; reflexivity|right; exact (IH i H Hz Hne)].
Qed.

Lemma NoDup_map_insert {A B : Type} (f : A -> B) (l : list A) (i : nat) (y : A) :
  NoDup (map f l) -> (forall x, In x l -> f x <> f y) -> NoDup (map f (<[i:=y]> l)).
Proof.
  revert i. induction l as [|a l IH]; intros [|i] Hnd Hy; simpl;
    [constructor|constructor| |].
  - inversion Hnd as [|? ? Hn Hnd']; subst.
    constructor; [|exact Hnd'].
    intros Hin. apply list_elem_of_In, in_map_iff in Hin as [x [Ex Hx]].
    exact (Hy x (or_intror Hx) Ex).
  - inversion Hnd as [|? ? Hn Hnd']; subst.
    constructor.
    + intros Hin. apply list_elem_of_In, in_map_iff in Hin as [x [Ex Hx]].
      apply In_insert in Hx as [->|Hx].
      * exact (Hy a (or_introl eq_refl) (eq_sym Ex)).
      * apply Hn. apply list_elem_of_In, in_map_iff. exists x. split; [exact Ex|exact Hx].
    + apply IH; [exact Hnd'|intros x Hx; exact (Hy x (or_intror Hx))].
Qed.

Lemma NoDup_snoc {A : Type} (l : list A) (x : A) :
  NoDup l -> ~ In x l -> NoDup (l ++ [x]).
Proof.
  induction l as [|a l IH]; intros Hnd Hx; simpl.
  - constructor; [intros Hin; apply list_elem_of_In in Hin; destruct Hin|constructor].
  - inversion Hnd as [|? ? Ha Hnd']; subst. constructor.
    + intros Hin. apply list_elem_of_In, in_app_or in Hin as [Hin|[E|[]]].
      { apply Ha, list_elem_of_In. exact Hin. }
      subst. apply Hx. left. reflexivity.
    + apply IH; [exact Hnd'|intros Hin; apply Hx; right; exact Hin].
Qed.

Lemma addToIndex_accounts_props (accs : list AccountSummary) (account : Account) :
  NoDup (map sum_id accs) ->
  NoDup (map sum_id (addToIndex_accounts accs account)) /\
  In (summary_of account) (addToIndex_accounts accs account) /\
  (forall a, In a accs -> sum_id a <> acc_id account ->
   sum_email a <> acc_email account -> In a (addToIndex_accounts accs account)) /\
  length (addToIndex_accounts accs account) =
    (if existsb (fun a => String.eqb (sum_id a) (acc_id account) ||
                          String.eqb (sum_email a) (acc_email account)) accs
     then length accs else S (length accs)).
Proof.
  intros Hnd. unfold addToIndex_accounts. cbv zeta.
  destruct (findIndex (fun a => String.eqb (sum_id a) (acc_id account)) accs)
    as [i|] eqn:Fi.
  { destruct (findIndex_Some _ _ _ Fi) as [x [Hx Hpx]].
    apply String.eqb_eq in Hpx.
    assert (Hex : existsb (fun a => String.eqb (sum_id a) (acc_id account) ||
                          String.eqb (sum_email a) (acc_email account)) accs = true).
    { apply existsb_exists. exists x. split; [exact (lookup_In _ _ _ Hx)|].
      rewrite Hpx, String.eqb_refl. reflexivity. }
    rewrite Hex. split; [|split; [|split]].
    - rewrite (map_insert_same sum_id accs i x (summary_of account) Hx); [exact Hnd|].
      exact Hpx.
    - exact (In_insert_new _ _ _ _ Hx).
    - intros a Ha Hid _. apply (In_insert_keep _ _ x); [exact Hx|exact Ha|].
      intros ->. exact (Hid Hpx).
    - apply length_insert. }
  assert (Hid : forall y, In y accs -> sum_id y <> acc_id account).
  { intros y Hy E. pose proof (findIndex_None _ _ Fi y Hy) as H. cbn beta in H.
    rewrite E, String.eqb_refl in H. discriminate. }
  destruct (findIndex (fun a => String.eqb (sum_email a) (acc_email account)) accs)
    as [j|] eqn:Fj.
  { destruct (findIndex_Some _ _ _ Fj) as [x [Hx Hpx]].
    apply String.eqb_eq in Hpx.
    assert (Hex : existsb (fun a => String.eqb (sum_id a) (acc_id account) ||
                          String.eqb (sum_email a) (acc_email account)) accs = true).
    { apply existsb_exists. exists x. split; [exact (lookup_In _ _ _ Hx)|].
      rewrite Hpx, String.eqb_refl, orb_true_r. reflexivity. }
    rewrite Hex. split; [|split; [|split]].
    - apply NoDup_map_insert; [exact Hnd|]. exact Hid.
    - exact (In_insert_new _ _ _ _ Hx).
    - intros a Ha _ Hem. apply (In_insert_keep _ _ x); [exact Hx|exact Ha|].
      intros ->. exact (Hem Hpx).
    - apply length_insert. }
  assert (Hex : existsb (fun a => String.eqb (sum_id a) (acc_id account) ||
                        String.eqb (sum_email a) (acc_email account)) accs = false).
  { destruct (existsb _ accs) eqn:E; [|reflexivity].
    apply existsb_exists in E as [y [Hy Ey]].
    rewrite (findIndex_None _ _ Fi y Hy), (findIndex_None _ _ Fj y Hy) in Ey.
    discriminate. }
  rewrite Hex. split; [|split; [|split]].
  - rewrite map_app. apply NoDup_snoc; [exact Hnd|].
    intros Hin. apply in_map_iff in Hin as [y [Ey Hy]]. exact (Hid y Hy Ey).
  - apply in_or_app. right. left. reflexivity.
  - intros a Ha _ _. apply in_or_app. left. exact Ha.
  - rewrite length_app. simpl. lia.
Qed.

(** [addToIndex] on accounts with distinct ids keeps them distinct; the
    new summary is in the list; every entry with another id and another
    email stays; the list grows by one exactly when no entry has the
    account's id or email (otherwise the first entry with its id, or else
    with its email, is replaced). *)
Theorem addToIndex_accounts_spec (accs : list AccountSummary) (account : Account) :
  NoDup (map sum_id accs) ->
  NoDup (map sum_id (addToIndex_accounts accs account)) /\
  In (summary_of account) (addToIndex_accounts accs account) /\
  (forall a, In a accs -> sum_id a <> acc_id account ->
   sum_email a <> acc_email account -> In a (addToIndex_accounts accs account)) /\
  length (addToIndex_accounts accs account) =
    (if existsb (fun a => String.eqb (sum_id a) (acc_id account) ||
                          String.eqb (sum_email a) (acc_email account)) accs
     then length accs else S (length accs)).
Proof. exact (addToIndex_accounts_props accs account). Qed.

Lemma addToIndex_accounts_spec_witness :
  let accs := [mkSummary "u1" "a@x.com" None 1 1; mkSummary "u2" "b@x.com" None 2 2] in
  let account := mkAccount "u3" "b@x.com" (Some "B") 3 3 in
  NoDup (map sum_id accs) /\
  NoDup (map sum_id (addToIndex_accounts accs account)) /\
  In (summary_of account) (addToIndex_accounts accs account) /\
  (forall a, In a accs -> sum_id a <> acc_id account ->
   sum_email a <> acc_email account -> In a (addToIndex_accounts accs account)) /\
  length (addToIndex_accounts accs account) =
    (if existsb (fun a => String.eqb (sum_id a) (acc_id account) ||
                          String.eqb (sum_email a) (acc_email account)) accs
     then length accs else S (length accs)).
Proof.
  cbv zeta.
  assert (H : NoDup (map sum_id [mkSummary "u1" "a@x.com" None 1 1;
                                 mkSummary "u2" "b@x.com" None 2 2])).
  { constructor; [rewrite list_elem_of_In; intros [E|[]]; discriminate|].
    constructor; [rewrite list_elem_of_In; intros []|constructor]. }
  split; [exact H|].
  exact (addToIndex_accounts_spec _ (mkAccount "u3" "b@x.com" (Some "B") 3 3) H).
Defined.

Lemma loginSaveAccount_props (d : DataFiles) (account : Account) :
  NoDup (map sum_id (accounts (loadAccountIndex d))) ->
  loadAccount (loginSaveAccount d account) (acc_id account) = Some account /\
  (forall id, id <> acc_id account ->
   loadAccount (loginSaveAccount d account) id = loadAccount d id) /\
  In (summary_of account) (accounts (loadAccountIndex (loginSaveAccount d account))) /\
  NoDup (map sum_id (accounts (loadAccountIndex (loginSaveAccount d account)))) /\
  current_account_id (loadAccountIndex (loginSaveAccount d account)) =
    match current_account_id (loadAccountIndex d) with
    | Some cur => if str_truthy cur then Some cur else Some (acc_id account)
    | None => Some (acc_id account)
    end.
Proof.
  intros Hnd.
  destruct (addToIndex_accounts_props _ account Hnd) as [H1 [H2 _]].
  assert (Ef : accountFiles (loginSaveAccount d account)
               = <[acc_id account := account]> (accountFiles d)).
  { unfold loginSaveAccount. cbv zeta.
    destruct (current_account_id _) as [cur|]; [destruct (str_truthy cur)|];
      reflexivity. }
  assert (Ei : loadAccountIndex (loginSaveAccount d account) =
     mkIndex (version (loadAccountIndex d))
       (addToIndex_accounts (accounts (loadAccountIndex d)) account)
       (match current_account_id (loadAccountIndex d) with
        | Some cur => if str_truthy cur then Some cur else Some (acc_id account)
        | None => Some (acc_id account)
        end)).
  { unfold loginSaveAccount, setCurrentAccount, addToIndex, saveAccountIndex,
      saveAccount, loadAccountIndex. cbv zeta. cbn [indexFile].
    destruct (indexFile d) as [[v accs [cur|]]|]; cbn;
      [destruct (str_truthy cur)| |]; reflexivity. }
  unfold loadAccount. rewrite Ef, Ei. cbn [accounts current_account_id].
  split; [apply lookup_insert_eq|]. split.
  - intros id Hid. rewrite lookup_insert_ne by congruence. reflexivity.
  - split; [exact H2|split; [exact H1|reflexivity]].
Qed.

(** After the login flow saves a new account: its file reads back as it,
    the other account files are unchanged, the index lists its summary
    and still has distinct ids, and the current account is the previous
    one when it was set (non-empty), the new account otherwise. *)
Theorem loginSaveAccount_spec (d : DataFiles) (account : Account) :
  NoDup (map sum_id (accounts (loadAccountIndex d))) ->
  loadAccount (loginSaveAccount d account) (acc_id account) = Some account /\
  (forall id, id <> acc_id account ->
   loadAccount (loginSaveAccount d account) id = loadAccount d id) /\
  In (summary_of account) (accounts (loadAccountIndex (loginSaveAccount d account))) /\
  NoDup (map sum_id (accounts (loadAccountIndex (loginSaveAccount d account)))) /\
  current_account_id (loadAccountIndex (loginSaveAccount d account)) =
    match current_account_id (loadAccountIndex d) with
    | Some cur => if str_truthy cur then Some cur else Some (acc_id account)
    | None => Some (acc_id account)
    end.
Proof. exact (loginSaveAccount_props d account). Qed.

Lemma loginSaveAccount_spec_witness :
  let d := mkFiles (Some (mkIndex "2.0" [mkSummary "u1" "a@x.com" None 1 1] None)) ∅ in
  let account := mkAccount "u2" "b@x.com" (Some "B") 2 2 in
  NoDup (map sum_id (accounts (loadAccountIndex d))) /\
  loadAccount (loginSaveAccount d account) (acc_id account) = Some account /\
  (forall id, id <> acc_id account ->
   loadAccount (loginSaveAccount d account) id = loadAccount d id) /\
  In (summary_of account) (accounts (loadAccountIndex (loginSaveAccount d account))) /\
  NoDup (map sum_id (accounts (loadAccountIndex (loginSaveAccount d account)))) /\
  current_account_id (loadAccountIndex (loginSaveAccount d account)) =
    match current_account_id (loadAccountIndex d) with
    | Some cur => if str_truthy cur then Some cur else Some (acc_id account)
    | None => Some (acc_id account)
    end.
Proof.
  cbv zeta.
  assert (H : NoDup (map sum_id (accounts (loadAccountIndex
                (mkFiles (Some (mkIndex "2.0" [mkSummary "u1" "a@x.com" None 1 1] None)) ∅)))))
    by (constructor; [rewrite list_elem_of_In; intros []|constructor]).
  split; [exact H|].
  exact (loginSaveAccount_spec _ (mkAccount "u2" "b@x.com" (Some "B") 2 2) H).
Defined.

(* ------------------------------------------------------------------ *)
(** ** The expiry of switchAccount *)

(** For a clock at or after the epoch, the expiry [switchAccount] injects
    is never 0: it is [expiry_timestamp] when that is set and non-zero;
    otherwise [now + expires_in] (in seconds) when [expires_in] is
    non-zero and the sum is non-zero; otherwise [now + 3600]. *)
Theorem switchExpiry_spec (expiry_timestamp expires_in : option Z) (now : Z) :
  0 <= now ->
  switchExpiry expiry_timestamp expires_in now <> 0 /\
  (forall z, expiry_timestamp = Some z -> z <> 0 ->
   switchExpiry expiry_timestamp expires_in now = z) /\
  (forall e, num_truthy expiry_timestamp = false -> expires_in = Some e -> e <> 0 ->
   now / 1000 + e <> 0 -> switchExpiry expiry_timestamp expires_in now = now / 1000 + e) /\
  (num_truthy expiry_timestamp = false ->
   (num_truthy expires_in = false \/
    exists e, expires_in = Some e /\ now / 1000 + e = 0) ->
   switchExpiry expiry_timestamp expires_in now = now / 1000 + 3600).
Proof.
  intros Hn. assert (Hd : 0 <= now / 1000) by (apply Z.div_pos; lia).
  unfold switchExpiry, num_truthy.
  destruct expiry_timestamp as [z|], expires_in as [e|];
    cbn [negb andb];
    repeat (match goal with |- context [?x =? 0] => destruct (x =? 0) eqn:? end;
            cbn [negb andb]);
    rewrite ?Z.eqb_eq, ?Z.eqb_neq in *;
    repeat split; intros;
    repeat match goal with
    | H : Some _ = Some _ |- _ => injection H as <-
    | H : _ \/ _ |- _ => destruct H
    | H : exists _, _ |- _ => destruct H as [? [? ?]]
    end; try discriminate; try congruence; try lia.
Qed.

Lemma switchExpiry_spec_witness :
  0 <= 1700000000000 /\
  switchExpiry None (Some 3599) 1700000000000 <> 0 /\
  (forall z, None = Some z -> z <> 0 -> switchExpiry None (Some 3599) 1700000000000 = z) /\
  (forall e, num_truthy None = false -> Some 3599 = Some e -> e <> 0 ->
   1700000000000 / 1000 + e <> 0 ->
   switchExpiry None (Some 3599) 1700000000000 = 1700000000000 / 1000 + e) /\
  (num_truthy None = false ->
   (num_truthy (Some 3599) = false \/
    exists e, Some 3599 = Some e /\ 1700000000000 / 1000 + e = 0) ->
   switchExpiry None (Some 3599) 1700000000000 = 1700000000000 / 1000 + 3600).
Proof.
  assert (H : 0 <= 1700000000000) by lia.
  split; [exact H|].
  exact (switchExpiry_spec None (Some 3599) 1700000000000 H).
Defined.

Lemma collectAccounts_In (d : DataFiles) (l : list AccountSummary)
    (s : AccountSummary) (a : Account) :
  In s l -> loadAccount d (sum_id s) = Some a -> In a (collectAccounts d l).
Proof.
  induction l as [|s' l IH]; [intros []|].
  intros [<-|Hin] Hl; cbn [collectAccounts].
  - rewrite Hl. left. reflexivity.
  - destruct (loadAccount d (sum_id s')); [right|]; exact (IH Hin Hl).
Qed.

Lemma collectAccounts_length (d : DataFiles) (l : list AccountSummary) :
  (length (collectAccounts d l) <= length l)%nat.
Proof.
  induction l as [|s l IH]; [simpl; lia|]. cbn [collectAccounts].
  destruct (loadAccount d (sum_id s)); simpl; lia.
Qed.

(** After the login flow saves an account, [getAllAccounts] lists it, and
    lists at most one account more than the index had summaries before. *)
Theorem getAllAccounts_after_login (d : DataFiles) (account : Account) :
  NoDup (map sum_id (accounts (loadAccountIndex d))) ->
  In account (getAllAccounts (loginSaveAccount d account)) /\
  (length (getAllAccounts (loginSaveAccount d account))
   <= S (length (accounts (loadAccountIndex d))))%nat.
Proof.
  intros Hnd.
  destruct (loginSaveAccount_props d account Hnd) as [Hl [_ [Hin [_ _]]]].
  unfold getAllAccounts. split.
  - exact (collectAccounts_In _ _ _ _ Hin Hl).
  - pose proof (collectAccounts_length (loginSaveAccount d account)
                  (accounts (loadAccountIndex (loginSaveAccount d account)))) as H.
    assert (Ei : accounts (loadAccountIndex (loginSaveAccount d account))
                 = addToIndex_accounts (accounts (loadAccountIndex d)) account).
    { unfold loginSaveAccount, setCurrentAccount, addToIndex, saveAccountIndex,
        saveAccount, loadAccountIndex. cbv zeta. cbn [indexFile].
      destruct (indexFile d) as [[v accs [cur|]]|]; cbn;
        [destruct (str_truthy cur)| |]; reflexivity. }
    destruct (addToIndex_accounts_props _ account Hnd) as [_ [_ [_ Hlen]]].
    rewrite Ei in H |- *. rewrite Hlen in H.
    revert H. destruct (existsb _ _); intros H; lia.
Qed.

Lemma getAllAccounts_after_login_witness :
  let d := mkFiles (Some (mkIndex "2.0" [mkSummary "u1" "a@x.com" None 1 1] None))
             (<["u1" := mkAccount "u1" "a@x.com" None 1 1]> ∅) in
  let account := mkAccount "u2" "b@x.com" (Some "B") 2 2 in
  NoDup (map sum_id (accounts (loadAccountIndex d))) /\
  In account (getAllAccounts (loginSaveAccount d account)) /\
  (length (getAllAccounts (loginSaveAccount d account))
   <= S (length (accounts (loadAccountIndex d))))%nat.
Proof.
  cbv zeta.
  assert (H : NoDup (map sum_id (accounts (loadAccountIndex
                (mkFiles (Some (mkIndex "2.0" [mkSummary "u1" "a@x.com" None 1 1] None))
                   (<["u1" := mkAccount "u1" "a@x.com" None 1 1]> ∅))))))
    by (constructor; [rewrite list_elem_of_In; intros []|constructor]).
  split; [exact H|].
  exact (getAllAccounts_after_login _ (mkAccount "u2" "b@x.com" (Some "B") 2 2) H).
Defined.
